(** * SignalForge: DSP primitives, script sandbox and graph model

    A shallow embedding of the processing code of SignalForge: the DSP
    building blocks ([BiquadFilter], [CircularBuffer], [EnvelopeFollower],
    [DelayLine]) and the user-script sandbox ([ScriptSandbox]), followed by
    the properties the design document states about them.  The sources
    hold no code for the node graph; its execution order and its
    serialization are modelled from the design document ([GraphModel]).

    Conventions.
    - JavaScript array indices are integers ([Z]); the result of [%] is a
      [jsnum], because [x % 0] is [NaN].
    - A read outside a typed array yields [undefined], modelled by [None];
      a store outside it is ignored.
    - A store into a [Float32Array] converts the sample to binary32.  The
      buffer model takes the sample type [A], its zero and that conversion
      [fround] as parameters; for the code they are the doubles, [0] and
      [Float32Array.fround].
    - Index arithmetic is written on [Z].  It is the arithmetic of the
      code as long as capacity and delay stay below [2 ^ 53], where every
      intermediate value is an integer that a double holds exactly.
    - Filter and envelope arithmetic is taken over the real numbers, with
      [Math.cos], [Math.sin], [Math.exp] and [Math.PI] as the real
      functions and constant; the delay time is a rational.
    - A JavaScript string is its list of UTF-16 code units.
    - Callbacks that run later (timer, worker message, worker error) are
      events applied to the state of the sandbox, in the order in which
      the event loop delivers them. *)

From Stdlib Require Import ZArith QArith Qround Reals Lra Lia Floats.
From stdpp Require Import base list strings gmap.

(** ** JavaScript numbers used as indices *)

Module JS.

(** An index-valued JavaScript number: an integer or [NaN]. *)
Inductive jsnum : Type :=
| Num (z : Z)
| NaN.

(** [a % b] on integers: the remainder has the sign of the dividend, and a
    zero divisor gives [NaN]. *)
Definition rem (a b : Z) : jsnum :=
  if (b =? 0)%Z then NaN else Num (Z.rem a b).

(** [arr[i]] on a typed array: [undefined] unless [i] is an index of it. *)
Definition get {A : Type} (arr : list A) (i : jsnum) : option A :=
  match i with
  | Num z => if (0 <=? z)%Z then arr !! Z.to_nat z else None
  | NaN => None
  end.

(** [arr[i] = x] on a typed array: ignored unless [i] is an index of it. *)
Definition set {A : Type} (arr : list A) (i : jsnum) (x : A) : list A :=
  match i with
  | Num z => if (0 <=? z)%Z then <[Z.to_nat z := x]> arr else arr
  | NaN => arr
  end.

(** [i + k] and [i - k] for an integer [k]; [NaN] is absorbing. *)
Definition add (i : jsnum) (k : Z) : jsnum :=
  match i with Num z => Num (z + k) | NaN => NaN end.

Definition sub (i : jsnum) (k : Z) : jsnum :=
  match i with Num z => Num (z - k) | NaN => NaN end.

(** [i % b] when the dividend may already be [NaN]. *)
Definition rem_num (i : jsnum) (b : Z) : jsnum :=
  match i with Num z => rem z b | NaN => NaN end.

(** The double nearest to an integer, and the double that is the
    quotient of numerator and denominator of a rational, rounded. *)
Definition number_of_Z (z : Z) : float :=
  SF2Prim (binary_normalize 53 1024 z 0 false).

Definition number_of_Q (q : Q) : float :=
  (number_of_Z (Qnum q) / number_of_Z (Zpos (Qden q)))%float.

End JS.

(** ** Float32Array *)

Module Float32Array.

(** The conversion that a store into a [Float32Array] applies to a
    double: the nearest binary32 value, ties to even, with overflow to an
    infinity and underflow through the subnormals to a zero; zeros,
    infinities and [NaN] are kept.  The result is a binary32 value, which
    a double holds exactly, and a read hands it back as that double. *)
Definition fround (x : float) : float :=
  match Prim2SF x with
  | S754_finite s m e => SF2Prim (binary_round 24 128 s m e)
  | _ => x
  end.

End Float32Array.

(** ** CircularBuffer *)

Module CircularBuffer.
Section Defs.
Context {A : Type} (zero : A) (fround : A → A).

(** The fields of the class: the typed array, its size and the index of
    the next slot to be written. *)
Record t : Type := Make {
  buffer : list A;
  size : Z;
  writeIndex : JS.jsnum
}.

(** [constructor(size)]: [new Float32Array(size)] throws a RangeError on a
    negative length ([None]) and is zero-filled otherwise. *)
Definition new (size : Z) : option t :=
  if (size <? 0)%Z then None
  else Some {| buffer := replicate (Z.to_nat size) zero;
               size := size;
               writeIndex := JS.Num 0 |}.

(** [write(sample)]: store at [writeIndex], which converts the sample
    with [fround], then advance the index modulo [size]. *)
Definition write (cb : t) (sample : A) : t :=
  {| buffer := JS.set (buffer cb) (writeIndex cb) (fround sample);
     size := size cb;
     writeIndex := JS.rem_num (JS.add (writeIndex cb) 1) (size cb) |}.

(** [read(delay)]: the slot [(writeIndex - delay + size) % size].  The
    index is computed on [Z]; the code computes it on doubles, with the
    same result whenever [size] is at most [2 ^ 52] and [delay] at most
    [2 ^ 53] in magnitude. *)
Definition read (cb : t) (delay : Z) : option A :=
  let readIndex :=
    JS.rem_num (JS.add (JS.sub (writeIndex cb) delay) (size cb)) (size cb) in
  JS.get (buffer cb) readIndex.

(** Successive [write] calls, oldest sample first. *)
Definition writes (cb : t) (samples : list A) : t :=
  foldl write cb samples.

(** The state invariant: a positive capacity, a buffer of exactly that
    many slots and a write index inside it. *)
Definition wf (cb : t) : Prop :=
  (0 < size cb)%Z ∧
  length (buffer cb) = Z.to_nat (size cb) ∧
  ∃ w, writeIndex cb = JS.Num w ∧ (0 <= w < size cb)%Z.

End Defs.
Arguments t A : clear implicits.
Arguments wf {A} cb.
End CircularBuffer.

(** ** DelayLine *)

Module DelayLine.
Section Defs.
Context {A : Type} (zero : A) (fround : A → A).

Record t : Type := Make {
  buffer : CircularBuffer.t A;
  delayInSamples : Z
}.

(** [constructor(maxDelayInSamples)]. *)
Definition new (maxDelayInSamples : Z) : option t :=
  match CircularBuffer.new zero maxDelayInSamples with
  | Some b => Some {| buffer := b; delayInSamples := 0 |}
  | None => None
  end.

(** [process(input, delayTime)]: write the input, then read at
    [Math.floor(delayTime)].  Returns the updated delay line and the value
    read. *)
Definition process (dl : t) (input : A) (delayTime : Q) : t * option A :=
  let b := CircularBuffer.write fround (buffer dl) input in
  ({| buffer := b; delayInSamples := delayInSamples dl |},
   CircularBuffer.read b (Qfloor delayTime)).

(** A run of [process] calls with their delay times, oldest first; the
    outputs are collected in call order. *)
Fixpoint run (dl : t) (calls : list (A * Q)) : t * list (option A) :=
  match calls with
  | [] => (dl, [])
  | (x, d) :: rest =>
      let '(dl1, y) := process dl x d in
      let '(dl2, ys) := run dl1 rest in
      (dl2, y :: ys)
  end.

End Defs.
Arguments t A : clear implicits.
End DelayLine.

(** ** EnvelopeFollower *)

Module EnvelopeFollower.
Local Open Scope R_scope.

(** The fields of the class: the two per-sample coefficients and the
    current envelope.  The time constants themselves are not stored. *)
Record t : Type := Make {
  attack : R;
  release : R;
  envelope : R
}.

(** [constructor(attackTime, releaseTime, sampleRate)].  The quotient is
    the real one, which is the quotient of the code for every nonzero
    product of time and rate.  At a zero product the code divides to an
    infinity ([Math.exp(-Infinity)] is 0) and the real quotient does not
    follow it: what is proved of [new] carries the hypothesis that the
    products are not zero. *)
Definition new (attackTime releaseTime sampleRate : R) : t :=
  {| attack := exp (-1 / (attackTime * sampleRate));
     release := exp (-1 / (releaseTime * sampleRate));
     envelope := 0 |}.

(** [process(input)]: returns the updated follower and the new
    envelope. *)
Definition process (f : t) (input : R) : t * R :=
  let inputAbs := Rabs input in
  let rate := if Rlt_dec (envelope f) inputAbs then attack f else release f in
  let e := inputAbs + (envelope f - inputAbs) * rate in
  ({| attack := attack f; release := release f; envelope := e |}, e).

(** The follower after a run of [process] calls, oldest input first. *)
Definition run (f : t) (inputs : list R) : t :=
  foldl (λ g x, (process g x).1) f inputs.

End EnvelopeFollower.

(** ** BiquadFilter *)

Module BiquadFilter.
Local Open Scope R_scope.

(** The fields of the class: sample rate, input and output history,
    feedforward and feedback coefficients. *)
Record t : Type := Make {
  fs : R;
  x1 : R; x2 : R;
  y1 : R; y2 : R;
  b0 : R; b1 : R; b2 : R;
  a1 : R; a2 : R
}.

(** [constructor(sampleRate)]. *)
Definition new (sampleRate : R) : t :=
  {| fs := sampleRate;
     x1 := 0; x2 := 0; y1 := 0; y2 := 0;
     b0 := 1; b1 := 0; b2 := 0; a1 := 0; a2 := 0 |}.

(** [setLowpass(frequency, Q)]: the history is kept, the five
    coefficients are replaced. *)
Definition setLowpass (f : t) (frequency Q : R) : t :=
  let omega := (2 * PI * frequency) / fs f in
  let cos_omega := cos omega in
  let sin_omega := sin omega in
  let alpha := sin_omega / (2 * Q) in
  let a0 := 1 + alpha in
  {| fs := fs f;
     x1 := x1 f; x2 := x2 f; y1 := y1 f; y2 := y2 f;
     b0 := (1 - cos_omega) / 2 / a0;
     b1 := (1 - cos_omega) / a0;
     b2 := (1 - cos_omega) / 2 / a0;
     a1 := (-2 * cos_omega) / a0;
     a2 := (1 - alpha) / a0 |}.

(** [process(input)]: the second-order difference equation and the shift
    of the two-sample history. *)
Definition process (f : t) (input : R) : t * R :=
  let output :=
    b0 f * input + b1 f * x1 f + b2 f * x2 f - a1 f * y1 f - a2 f * y2 f in
  ({| fs := fs f;
      x1 := input; x2 := x1 f; y1 := output; y2 := y1 f;
      b0 := b0 f; b1 := b1 f; b2 := b2 f; a1 := a1 f; a2 := a2 f |},
   output).

(** The filter after the first [n] samples of the input signal [input]. *)
Fixpoint state_at (f : t) (input : nat → R) (n : nat) : t :=
  match n with
  | O => f
  | S k => (process (state_at f input k) (input k)).1
  end.

(** The [n]-th output sample for the input signal [input]. *)
Definition output_at (f : t) (input : nat → R) (n : nat) : R :=
  (process (state_at f input n) (input n)).2.

(** The unit impulse: 1 first, 0 ever after. *)
Definition unit_impulse (n : nat) : R :=
  match n with O => 1 | S _ => 0 end.

End BiquadFilter.

(** ** BiquadFilter on binary64 *)

(** The same class with every [+], [-], [*] and [/] rounded to binary64,
    as JavaScript evaluates them.  [Math.cos] and [Math.sin] are inputs:
    the language leaves their last bits to the engine. *)
Module BiquadFilter64.
Local Open Scope float_scope.

Record t : Type := Make {
  fs : float;
  x1 : float; x2 : float;
  y1 : float; y2 : float;
  b0 : float; b1 : float; b2 : float;
  a1 : float; a2 : float
}.

(** [Math.PI], the double nearest to pi. *)
Definition Math_PI : float := 0x1.921fb54442d18p+1.

Definition new (sampleRate : float) : t :=
  {| fs := sampleRate;
     x1 := 0; x2 := 0; y1 := 0; y2 := 0;
     b0 := 1; b1 := 0; b2 := 0; a1 := 0; a2 := 0 |}.

Definition setLowpass (Math_cos Math_sin : float → float)
    (f : t) (frequency Q : float) : t :=
  let omega := (2 * Math_PI * frequency) / fs f in
  let cos_omega := Math_cos omega in
  let sin_omega := Math_sin omega in
  let alpha := sin_omega / (2 * Q) in
  let a0 := 1 + alpha in
  {| fs := fs f;
     x1 := x1 f; x2 := x2 f; y1 := y1 f; y2 := y2 f;
     b0 := (1 - cos_omega) / 2 / a0;
     b1 := (1 - cos_omega) / a0;
     b2 := (1 - cos_omega) / 2 / a0;
     a1 := (-2 * cos_omega) / a0;
     a2 := (1 - alpha) / a0 |}.

Definition process (f : t) (input : float) : t * float :=
  let output :=
    b0 f * input + b1 f * x1 f + b2 f * x2 f - a1 f * y1 f - a2 f * y2 f in
  ({| fs := fs f;
      x1 := input; x2 := x1 f; y1 := output; y2 := y1 f;
      b0 := b0 f; b1 := b1 f; b2 := b2 f; a1 := a1 f; a2 := a2 f |},
   output).

Fixpoint state_at (f : t) (input : nat → float) (n : nat) : t :=
  match n with
  | O => f
  | S k => (process (state_at f input k) (input k)).1
  end.

Definition output_at (f : t) (input : nat → float) (n : nat) : float :=
  (process (state_at f input n) (input n)).2.

Definition unit_impulse (n : nat) : float :=
  match n with O => 1 | S _ => 0 end.

End BiquadFilter64.

(** ** ScriptSandbox *)

Module ScriptSandbox.
Local Open Scope N_scope.

(** A JavaScript string is a sequence of UTF-16 code units; [length] counts
    them and a regular expression without the [u] flag matches on them. *)
Definition jsstring : Type := list N.

(** The code units of an ASCII text. *)
Definition code_units (s : string) : jsstring :=
  Ascii.N_of_ascii <$> String.list_ascii_of_string s.

(** The class [\s]: white space and line terminators. *)
Definition is_whitespace (c : N) : bool :=
  ((9 <=? c) && (c <=? 13)) || (c =? 32) || (c =? 160) || (c =? 5760)
  || ((8192 <=? c) && (c <=? 8202)) || (c =? 8232) || (c =? 8233)
  || (c =? 8239) || (c =? 8287) || (c =? 12288) || (c =? 65279).

(** The regular expressions of [validateScript] use two constructs: a
    literal character and [\s*]. *)
Inductive atom : Type :=
| Lit (c : N)
| WsStar.

Definition pattern : Type := list atom.

Definition lit (s : string) : pattern := Lit <$> code_units s.

(** Does [p] match a prefix of the input? *)
Fixpoint match_here (p : pattern) : jsstring → bool :=
  match p with
  | [] => λ _, true
  | Lit c :: p' => λ s,
      match s with
      | x :: s' => (x =? c) && match_here p' s'
      | [] => false
      end
  | WsStar :: p' =>
      fix star (s : jsstring) : bool :=
        match_here p' s
        || match s with
           | x :: s' => is_whitespace x && star s'
           | [] => false
           end
  end.

(** [pattern.test(code)] for a regular expression without flags: is there
    a match starting anywhere in the input? *)
Fixpoint test (p : pattern) (s : jsstring) : bool :=
  match_here p s
  || match s with
     | _ :: s' => test p s'
     | [] => false
     end.

(** The array [dangerous], in source order. *)
Definition dangerous : list pattern :=
  [ lit "eval" ++ [WsStar] ++ lit "(";
    lit "Function" ++ [WsStar] ++ lit "(";
    lit "constructor" ++ [WsStar] ++ lit "[";
    lit "__proto__";
    lit "document.";
    lit "window.";
    lit "global." ].

(** How a call ends: it returns, or it throws an [Error] with a
    message. *)
Inductive outcome : Type :=
| Returns
| Throws (message : string).

(** [validateScript(code)]: the pattern loop, then the size check. *)
Definition validateScript (code : jsstring) : outcome :=
  if existsb (λ p, test p code) dangerous
  then Throws "Script contains unsafe code patterns"
  else if (10000 <? N.of_nat (length code))
  then Throws "Script exceeds maximum size"
  else Returns.

(** The text handed to the worker: the prelude that removes four globals,
    then the user code. *)
Definition prelude : string :=
"
            // Remove access to dangerous APIs
            self.XMLHttpRequest = undefined;
            self.fetch = undefined;
            self.WebSocket = undefined;
            self.importScripts = undefined;

            // User code in strict mode
            'use strict';
            ".

Definition epilogue : string :=
"
        ".

Definition sandboxedCode (code : jsstring) : jsstring :=
  code_units prelude ++ code ++ code_units epilogue.

(** The promise an invocation returns. *)
Inductive promise (D : Type) : Type :=
| Pending
| Fulfilled (data : D)
| Rejected (error : string).
Arguments Pending {D}.
Arguments Fulfilled {D} data.
Arguments Rejected {D} error.

Inductive worker_status : Type :=
| Running
| Terminated.

(** What one invocation that got past validation owns: its worker (with
    the script it runs), its timer, its object URL and its promise. *)
Record invocation (D : Type) : Type := Invocation {
  script : jsstring;
  status : worker_status;
  timer_armed : bool;
  url_revoked : bool;
  result : promise D
}.
Arguments Invocation {D}.
Arguments script {D}.
Arguments status {D}.
Arguments timer_armed {D}.
Arguments url_revoked {D}.
Arguments result {D}.

(** The sandbox object and what hangs off it.  [worker] is the field
    [this.worker], the number of the worker created last; [timeout] is the
    limit in milliseconds; [invocations] are the invocations that created
    a worker, numbered in call order; [uncaught] collects the errors
    thrown out of timer callbacks, which reach the host's global error
    handler and nobody else. *)
Record t (D : Type) : Type := Make {
  worker : option nat;
  timeout : Z;
  invocations : list (invocation D);
  uncaught : list string
}.
Arguments Make {D}.
Arguments worker {D}.
Arguments timeout {D}.
Arguments invocations {D}.
Arguments uncaught {D}.

Section Run.
Context {D : Type}.

(** [constructor()]. *)
Definition new : t D :=
  {| worker := None; timeout := 5000; invocations := []; uncaught := [] |}.

(** What the caller of [executeUserScript] holds: a promise rejected by
    the validation error, or the promise of invocation [id]. *)
Inductive call : Type :=
| RejectedAtOnce (error : string)
| Started (id : nat).

(** [executeUserScript(code, audioData)] up to its [return]: validation,
    then worker, timer and promise.  The body has no [await]; it runs to
    the end within the call. *)
Definition executeUserScript (sb : t D) (code : jsstring) (audioData : D)
  : t D * call :=
  match validateScript code with
  | Throws message => (sb, RejectedAtOnce message)
  | Returns =>
      let id := length (invocations sb) in
      ({| worker := Some id;
          timeout := timeout sb;
          invocations :=
            invocations sb ++
            [ {| script := sandboxedCode code; status := Running;
                 timer_armed := true; url_revoked := false;
                 result := Pending |} ];
          uncaught := uncaught sb |},
       Started id)
  end.

(** The callbacks the event loop may run later. *)
Inductive event : Type :=
| TimerFired (id : nat)
| Message (id : nat) (data : D)
| WorkerError (id : nat) (error : string).

(** [resolve] and [reject] act on a pending promise only. *)
Definition settle (p q : promise D) : promise D :=
  match p with Pending => q | _ => p end.

(** The timer callback of invocation [id]: [this.worker.terminate()] on
    whatever worker the field holds by then, followed by a [throw] that
    leaves the callback. *)
Definition on_timeout (sb : t D) (id : nat) : t D :=
  match invocations sb !! id with
  | Some inv =>
      if timer_armed inv then
        let disarmed :=
          <[id := {| script := script inv; status := status inv;
                     timer_armed := false; url_revoked := url_revoked inv;
                     result := result inv |}]> (invocations sb) in
        let terminated :=
          match worker sb with
          | Some w =>
              alter (λ i, {| script := script i; status := Terminated;
                             timer_armed := timer_armed i;
                             url_revoked := url_revoked i;
                             result := result i |}) w disarmed
          | None => disarmed
          end in
        {| worker := worker sb; timeout := timeout sb;
           invocations := terminated;
           uncaught := uncaught sb ++ ["Script execution timeout"] |}
      else sb
  | None => sb
  end.

(** [onmessage] and [onerror] of the worker of invocation [id]:
    [clearTimeout], [revokeObjectURL], then [resolve] or [reject].  A
    terminated worker delivers nothing. *)
Definition on_worker (sb : t D) (id : nat) (q : promise D) : t D :=
  match invocations sb !! id with
  | Some inv =>
      match status inv with
      | Running =>
          {| worker := worker sb; timeout := timeout sb;
             invocations :=
               <[id := {| script := script inv; status := Running;
                          timer_armed := false; url_revoked := true;
                          result := settle (result inv) q |}]>
                 (invocations sb);
             uncaught := uncaught sb |}
      | Terminated => sb
      end
  | None => sb
  end.

Definition step (sb : t D) (e : event) : t D :=
  match e with
  | TimerFired id => on_timeout sb id
  | Message id data => on_worker sb id (Fulfilled data)
  | WorkerError id error => on_worker sb id (Rejected error)
  end.

Definition steps (sb : t D) (es : list event) : t D := foldl step sb es.

(** The promise of invocation [id], as its caller sees it. *)
Definition promise_of (sb : t D) (id : nat) : option (promise D) :=
  result <$> invocations sb !! id.

Definition status_of (sb : t D) (id : nat) : option worker_status :=
  status <$> invocations sb !! id.

End Run.
End ScriptSandbox.

(** ** Graph model, execution order and serialization *)

(** The sources hold no code for the Graph Model, the Scheduler's
    ordering or the serialization; every definition of this module is
    modelled from the design document. *)
Module GraphModel.

(** Modelled from the spec: the node categories of the data model (the
    sources hold no graph code). *)
Inductive category : Type :=
| Source
| Effect
| Analyzer
| Output
| Control
| Subroutine
| CustomScript.

(** Modelled from the spec: a port is addressed by the id of its node and
    its index in the node's port list; a connection is a directed edge
    from an output port to an input port. *)
Definition Endpoint : Type := nat * nat.
Definition Connection : Type := Endpoint * Endpoint.

(** Modelled from the spec: the nodes at the two ends of a connection. *)
Definition source_node (c : Connection) : nat := c.1.1.
Definition destination_node (c : Connection) : nat := c.2.1.

(** Modelled from the spec: a node has a unique id, a category, the type
    identifier of its primitive or script, a mapping from parameter name
    to current value, position metadata for the editor, and internal
    processing state that it alone owns.  Ports, parameter ranges and
    defaults belong to the interface that the type identifier declares
    and are not repeated here. *)
Record Node : Type := MakeNode {
  id : nat;
  node_category : category;
  type_id : string;
  parameters : gmap string Q;
  position : Z * Z;
  state : list Q
}.

(** Modelled from the spec: the graph is its nodes, kept in creation
    order, and its connection set. *)
Record Graph : Type := MakeGraph {
  nodes : list Node;
  connections : gset Connection
}.

(** Modelled from the spec: the node ids, in creation order. *)
Definition ids (g : Graph) : list nat := id <$> nodes g.

(** Modelled from the spec: a node is a feedback-delay node when it is
    declared as one, here by its type identifier. *)
Definition is_feedback_delay (n : Node) : bool :=
  bool_decide (type_id n = "feedback-delay").

(** Modelled from the spec: the node with id [v], if the graph has one. *)
Definition node_of (g : Graph) (v : nat) : option Node :=
  snd <$> list_find (λ n, id n = v) (nodes g).

(** Modelled from the spec: the connection leaves a feedback-delay
    node. *)
Definition feedback_source (g : Graph) (c : Connection) : bool :=
  match node_of g (source_node c) with
  | Some n => is_feedback_delay n
  | None => false
  end.

(** Modelled from the spec: the nodes other than feedback-delay nodes
    that provide the inputs of [v].  Acyclicity is asked of these
    connections only: a feedback-delay node may close a cycle. *)
Definition providers (g : Graph) (v : nat) : list nat :=
  omap (λ c, if bool_decide (destination_node c = v)
                && negb (feedback_source g c)
             then Some (source_node c) else None)
       (elements (connections g)).

(** Modelled from the spec: in the validation of a graph, [v] can be
    placed once the nodes in [placed] are, that is, it is not placed yet
    and all its providers are. *)
Definition ready (g : Graph) (placed : list nat) (v : nat) : Prop :=
  (v ∉ placed) ∧ Forall (.∈ placed) (providers g v).

#[global] Instance ready_dec g placed v : Decision (ready g placed v).
Proof. unfold ready. apply _. Defined.

(** Modelled from the spec: the next node that the validation places
    is the earliest created among the ready ones. *)
Definition next (g : Graph) (placed : list nat) : option nat :=
  snd <$> list_find (ready g placed) (ids g).

(** Modelled from the spec: the validation places one node at a time,
    each the choice of [next] after the nodes placed so far. *)
Fixpoint schedule_from (g : Graph) (fuel : nat) (placed : list nat)
  : list nat :=
  match fuel with
  | O => placed
  | S fuel' =>
      match next g placed with
      | Some v => schedule_from g fuel' (placed ++ [v])
      | None => placed
      end
  end.

(** Modelled from the spec: the acyclicity validation of a whole graph,
    one round per node.  It places every node exactly when the graph is
    acyclic modulo feedback-delay nodes, and is what the structural check
    of a deserialized document runs.  The order in which the Scheduler
    runs the nodes is [topological_order], below. *)
Definition schedule (g : Graph) : list nat :=
  schedule_from g (length (nodes g)) [].

(** Modelled from the spec: [u] provides an input of [v] and is not a
    feedback-delay node. *)
Definition dependency (g : Graph) (u v : nat) : Prop := u ∈ providers g v.

(** Modelled from the spec: the graph is acyclic modulo feedback-delay
    nodes, that is, no chain of dependencies leads from a node back to
    itself. *)
Definition acyclic (g : Graph) : Prop := ∀ v, ¬ tc (dependency g) v v.

(** Modelled from the spec: no connection refers to a node that is not in
    the graph. *)
Definition no_dangling (g : Graph) : Prop :=
  ∀ c, c ∈ connections g →
       source_node c ∈ ids g ∧ destination_node c ∈ ids g.

(** Modelled from the spec: the invariants of a valid graph.  Ids are
    unique, no connection dangles and the dependencies are acyclic. *)
Definition valid (g : Graph) : Prop :=
  NoDup (ids g) ∧ no_dangling g ∧ acyclic g.






(** Modelled from the spec: the serialized document lists, for each node,
    id, category, type identifier, parameter values and position, and the
    connections by source and destination node and port. *)
Record NodeEntry : Type := MakeEntry {
  entry_id : nat;
  entry_category : category;
  entry_type : string;
  entry_parameters : list (string * Q);
  entry_position : Z * Z
}.

(** Modelled from the spec: the document, nodes then connections. *)
Record Document : Type := MakeDocument {
  doc_nodes : list NodeEntry;
  doc_connections : list Connection
}.

(** Modelled from the spec: the entry of a node carries its parameter
    values as a list of name and value pairs; the internal state is not
    written. *)
Definition serialize_node (n : Node) : NodeEntry :=
  {| entry_id := id n;
     entry_category := node_category n;
     entry_type := type_id n;
     entry_parameters := map_to_list (parameters n);
     entry_position := position n |}.

(** Modelled from the spec: serialization of a graph. *)
Definition serialize (g : Graph) : Document :=
  {| doc_nodes := serialize_node <$> nodes g;
     doc_connections := elements (connections g) |}.

(** Modelled from the spec: a node rebuilt from its entry; its internal
    state starts afresh. *)
Definition deserialize_node (e : NodeEntry) : Node :=
  {| id := entry_id e;
     node_category := entry_category e;
     type_id := entry_type e;
     parameters := list_to_map (entry_parameters e);
     position := entry_position e;
     state := [] |}.

(** Modelled from the spec: the graph that a document describes. *)
Definition build (d : Document) : Graph :=
  {| nodes := deserialize_node <$> doc_nodes d;
     connections := list_to_set (doc_connections d) |}.

(** Modelled from the spec: the structural checks a document has to
    pass, namely unique ids, no connection to a missing node, and a
    validation run that places every node (a cycle that avoids the
    feedback-delay nodes would leave its nodes waiting for each
    other). *)
Definition well_formed (g : Graph) : bool :=
  bool_decide (NoDup (ids g))
  && bool_decide (set_Forall
                    (λ c, source_node c ∈ ids g ∧ destination_node c ∈ ids g)
                    (connections g))
  && bool_decide (length (schedule g) = length (nodes g)).

(** Modelled from the spec: deserialization rebuilds the graph and fails
    with a structural error ([None]) if the result is not well formed. *)
Definition deserialize (d : Document) : option Graph :=
  let g := build d in
  if well_formed g then Some g else None.

End GraphModel.

(** ** RateLimiter *)

Module RateLimiter.
Local Open Scope Z_scope.

(** The fields of the class: the [Map] from identifier to the log of its
    request times, the limit and the window in milliseconds. *)
Record t : Type := Make {
  requests : gmap string (list Z);
  maxRequests : Z;
  windowMs : Z
}.

(** [constructor(maxRequests = 100, windowMs = 60000)]. *)
Definition new (maxRequests windowMs : Z) : t :=
  {| requests := ∅; maxRequests := maxRequests; windowMs := windowMs |}.

Definition new_default : t := new 100 60000.

(** [isAllowed(identifier)], with the reading [now] of [Date.now()] as
    an argument.  Returns the updated limiter and the answer; the log is
    stored only when the request is allowed. *)
Definition isAllowed (rl : t) (identifier : string) (now : Z) : t * bool :=
  let userRequests := default [] (requests rl !! identifier) in
  let validRequests :=
    filter (λ time, now - time < windowMs rl) userRequests in
  if maxRequests rl <=? Z.of_nat (length validRequests)
  then (rl, false)
  else ({| requests :=
             <[identifier := validRequests ++ [now]]> (requests rl);
           maxRequests := maxRequests rl;
           windowMs := windowMs rl |},
        true).

(** A run of calls, each with its identifier and clock reading, oldest
    first; the answers are collected in call order. *)
Definition run (rl : t) (calls : list (string * Z)) : t * list bool :=
  foldl (λ acc call,
           let r := isAllowed acc.1 call.1 call.2 in (r.1, acc.2 ++ [r.2]))
        (rl, []) calls.

End RateLimiter.

(** ** InputValidator *)

Module InputValidator.
Local Open Scope N_scope.

(** The class [[a-zA-Z0-9_\- ]] of [validateNodeName]. *)
Definition is_name_char (c : N) : bool :=
  ((97 <=? c) && (c <=? 122)) || ((65 <=? c) && (c <=? 90))
  || ((48 <=? c) && (c <=? 57)) || (c =? 95) || (c =? 45) || (c =? 32).

(** [validateNodeName(name)] for a string [name]: the length test, then
    the regular expression, which is anchored at both ends and demands
    every character in the class. *)
Definition validateNodeName (name : ScriptSandbox.jsstring) : bool :=
  if (N.of_nat (length name) <? 1) || (50 <? N.of_nat (length name))
  then false
  else if negb (forallb is_name_char name && negb (length name =? 0)%nat)
  then false
  else true.

(** What the HTML serializer writes for one code unit of a text node:
    the ampersand, the no-break space and the two angle brackets become
    character references. *)
Definition escape_unit (c : N) : ScriptSandbox.jsstring :=
  if c =? 38 then ScriptSandbox.code_units "&amp;"
  else if c =? 160 then ScriptSandbox.code_units "&nbsp;"
  else if c =? 60 then ScriptSandbox.code_units "&lt;"
  else if c =? 62 then ScriptSandbox.code_units "&gt;"
  else [c].

(** [sanitizeHTML(input)] for a string [input]: the text is set as the
    [textContent] of a fresh [div] and read back as its [innerHTML],
    which is the serialization of that one text node. *)
Definition sanitizeHTML (input : ScriptSandbox.jsstring)
  : ScriptSandbox.jsstring :=
  flat_map escape_unit input.

End InputValidator.

(** ** OAuthService: the encoding of state and code challenge *)

Module OAuthService.
Local Open Scope N_scope.

(** The base64 alphabet of [btoa]. *)
Definition base64_char (i : N) : N :=
  if i <? 26 then 65 + i
  else if i <? 52 then 97 + (i - 26)
  else if i <? 62 then 48 + (i - 52)
  else if i =? 62 then 43
  else 47.

(** [btoa] on a string whose code units are the given bytes: three bytes
    give four characters, and a last group of one or two bytes is padded
    with [=]. *)
Fixpoint base64 (bytes : list N) : ScriptSandbox.jsstring :=
  match bytes with
  | [] => []
  | [a] => [base64_char (a / 4); base64_char (a mod 4 * 16); 61; 61]
  | [a; b] =>
      [base64_char (a / 4); base64_char (a mod 4 * 16 + b / 16);
       base64_char (b mod 16 * 4); 61]
  | a :: b :: c :: rest =>
      [base64_char (a / 4); base64_char (a mod 4 * 16 + b / 16);
       base64_char (b mod 16 * 4 + c / 64); base64_char (c mod 64)]
      ++ base64 rest
  end.

(** [btoa(String.fromCharCode(...array))]: [btoa] throws
    ([None]) on a code unit above 255. *)
Definition btoa (s : ScriptSandbox.jsstring) : option ScriptSandbox.jsstring :=
  if forallb (λ c, c <? 256) s then Some (base64 s) else None.

(** [s.replace(/c/g, d)] for a one-character pattern and replacement, and
    [s.replace(/c/g, '')]. *)
Definition replace_all (c d : N) (s : ScriptSandbox.jsstring)
  : ScriptSandbox.jsstring :=
  (λ x, if x =? c then d else x) <$> s.

Definition remove_all (c : N) (s : ScriptSandbox.jsstring)
  : ScriptSandbox.jsstring :=
  filter (λ x, x ≠ c) s.

(** The chain [.replace(/\+/g, '-').replace(/\//g, '_').replace(/=/g, '')]
    applied to [btoa(...)], as both [generateState] and
    [generateCodeChallenge] write it. *)
Definition url_safe_base64 (bytes : list N) : option ScriptSandbox.jsstring :=
  (λ s, remove_all 61 (replace_all 47 95 (replace_all 43 45 s)))
    <$> btoa bytes.

(** [generateState()], with the 32 bytes that [crypto.getRandomValues]
    wrote into the array as an argument. *)
Definition generateState (random : list N) : option ScriptSandbox.jsstring :=
  url_safe_base64 random.

(** [generateCodeChallenge(verifier)] from the digest on: the bytes of
    the SHA-256 digest of the verifier are an argument. *)
Definition generateCodeChallenge (digest : list N)
  : option ScriptSandbox.jsstring :=
  url_safe_base64 digest.

End OAuthService.

(** * Vocabulary of the properties *)

(** ** Delay line and filter *)

(** Linear interpolation between two samples, as the design document asks
    of a fractional delay: weight [1 - frac] on the nearer sample [a] and
    [frac] on the farther sample [b]. *)
Definition lerp (a b frac : float) : float :=
  (a * (1 - frac) + b * frac)%float.

(** The output the design document describes for a delay time [d]: the
    interpolation between the samples [floor d] and [floor d + 1] places
    back, weighted by the fractional part of [d]. *)
Definition interpolated_read (cb : CircularBuffer.t float) (d : Q)
  : option float :=
  match CircularBuffer.read cb (Qfloor d),
        CircularBuffer.read cb (Qfloor d + 1) with
  | Some a, Some b =>
      Some (lerp a b (JS.number_of_Q (d - inject_Z (Qfloor d))))
  | _, _ => None
  end.

(** The filter under study: cutoff at half the Nyquist frequency, that is
    a quarter of the sample rate, and Q = 0.707. *)
Definition quarter_lowpass (sampleRate : R) : BiquadFilter.t :=
  BiquadFilter.setLowpass (BiquadFilter.new sampleRate)
    (sampleRate / 2 / 2) (707 / 1000).

(** The binary64 filter at 48 kHz with cutoff 12 kHz and Q = 0.707 (the
    double nearest to it), for an engine whose [Math.cos] and [Math.sin]
    return [c] and [s] at [omega]. *)
Definition quarter_lowpass64 (c s : float) : BiquadFilter64.t :=
  BiquadFilter64.setLowpass (λ _, c) (λ _, s)
    (BiquadFilter64.new 48000) 12000 0x1.69fbe76c8b439p-1.

(** The same filter with a silent history. *)
Definition silent64 (c s : float) : BiquadFilter64.t :=
  let f := quarter_lowpass64 c s in
  {| BiquadFilter64.fs := BiquadFilter64.fs f;
     BiquadFilter64.x1 := 0; BiquadFilter64.x2 := 0;
     BiquadFilter64.y1 := 0; BiquadFilter64.y2 := 0;
     BiquadFilter64.b0 := BiquadFilter64.b0 f;
     BiquadFilter64.b1 := BiquadFilter64.b1 f;
     BiquadFilter64.b2 := BiquadFilter64.b2 f;
     BiquadFilter64.a1 := BiquadFilter64.a1 f;
     BiquadFilter64.a2 := BiquadFilter64.a2 f |}.

(** What is checked of the [n]-th sample of a binary64 impulse response
    [y]: it is at most 1 in magnitude, and the sample two places later is
    smaller in magnitude unless both are zero. *)
Definition decays64 (y : nat → float) (n : nat) : bool :=
  ((PrimFloat.abs (y n) <=? 1)
   && ((PrimFloat.abs (y (S (S n))) <? PrimFloat.abs (y n))
       || (PrimFloat.abs (y n) =? 0)))%float.

(** ** Script sandbox *)

(** The language of a pattern: the strings it matches from end to end. *)
Inductive matches : ScriptSandbox.pattern → ScriptSandbox.jsstring → Prop :=
| matches_nil : matches [] []
| matches_lit c p s :
    matches p s → matches (ScriptSandbox.Lit c :: p) (c :: s)
| matches_ws p ws s :
    Forall (λ c, ScriptSandbox.is_whitespace c = true) ws →
    matches p s → matches (ScriptSandbox.WsStar :: p) (ws ++ s).

(** [code] contains a match of [p]. *)
Definition contains (p : ScriptSandbox.pattern) (code : ScriptSandbox.jsstring)
  : Prop :=
  ∃ pre m post, code = pre ++ m ++ post ∧ matches p m.

(** The capabilities the design document wants kept from scripts. *)
Inductive capability : Type :=
| Timers
| Network
| Storage
| Reflection.

(** Global names through which a worker script reaches each of them. *)
Definition api_names (c : capability) : list string :=
  match c with
  | Timers => ["setTimeout"; "setInterval"]
  | Network => ["fetch"; "XMLHttpRequest"; "WebSocket"]
  | Storage => ["indexedDB"; "caches"]
  | Reflection => ["Reflect"; "getPrototypeOf"]
  end.

(** The script text mentions one of the names of capability [c]. *)
Definition could_access (c : capability) (code : ScriptSandbox.jsstring) : bool :=
  existsb (λ name, ScriptSandbox.test (ScriptSandbox.lit name) code)
          (api_names c).

(** ** Graph model *)

(** Every entry of the list was the choice of [next] after the entries
    before it. *)
Definition chosen (g : GraphModel.Graph) (placed : list nat) : Prop :=
  ∀ i v, placed !! i = Some v →
         GraphModel.next g (take i placed) = Some v.

(** A connection leads from [u] to [w]: [u] provides an input of [w]. *)
Definition connected (g : GraphModel.Graph) (u w : nat) : Prop :=
  ∃ c, c ∈ GraphModel.connections g ∧
       GraphModel.source_node c = u ∧ GraphModel.destination_node c = w.

(** [u] stands before [v] in the list.  In the list of the ids of a
    graph: [u] was created before [v]. *)
Definition before (l : list nat) (u v : nat) : Prop :=
  ∃ l1 l2 l3, l = l1 ++ u :: l2 ++ v :: l3.








(** A node as it comes back from its serialized entry: everything but
    the internal state. *)
Definition reset_state (n : GraphModel.Node) : GraphModel.Node :=
  {| GraphModel.id := GraphModel.id n;
     GraphModel.node_category := GraphModel.node_category n;
     GraphModel.type_id := GraphModel.type_id n;
     GraphModel.parameters := GraphModel.parameters n;
     GraphModel.position := GraphModel.position n;
     GraphModel.state := [] |}.

Definition reset (g : GraphModel.Graph) : GraphModel.Graph :=
  {| GraphModel.nodes := reset_state <$> GraphModel.nodes g;
     GraphModel.connections := GraphModel.connections g |}.

(** An example graph: an oscillator (0) into a mixer (1), the mixer into
    the output (3), and a feedback loop from the mixer through a
    feedback-delay node (2) back into the mixer. *)
Definition example_node (i : nat) (c : GraphModel.category) (t : string)
    (gain : Q) : GraphModel.Node :=
  {| GraphModel.id := i; GraphModel.node_category := c;
     GraphModel.type_id := t;
     GraphModel.parameters := {[ "gain" := gain ]};
     GraphModel.position := (Z.of_nat i * 100, 0)%Z;
     GraphModel.state := [gain] |}.

Definition example_graph : GraphModel.Graph :=
  {| GraphModel.nodes :=
       [ example_node 0 GraphModel.Source "oscillator" 1;
         example_node 1 GraphModel.Effect "mixer" (1 # 2);
         example_node 2 GraphModel.Effect "feedback-delay" (1 # 4);
         example_node 3 GraphModel.Output "output" 1 ];
     GraphModel.connections :=
       {[ ((0, 0), (1, 0)); ((1, 0), (2, 0)); ((2, 0), (1, 1));
          ((1, 0), (3, 0)) ]}%nat |}.


(** ** Further vocabulary *)


(** The times of the calls of [identifier] that the limiter allowed, in
    call order. *)
Definition granted (rl : RateLimiter.t) (identifier : string)
    (calls : list (string * Z)) : list Z :=
  omap (λ '(call, ok),
          if ok && bool_decide (call.1 = identifier)
          then Some call.2 else None)
       (zip calls (RateLimiter.run rl calls).2).

(** The clock readings never go back. *)
Definition nondecreasing (times : list Z) : Prop :=
  ∀ i j s t, i < j → times !! i = Some s → times !! j = Some t → (s <= t)%Z.

(** The events that the worker of invocation [j] raises: its messages
    and its errors. *)
Definition worker_event_of {D : Type} (j : nat)
    (e : ScriptSandbox.event (D := D)) : bool :=
  match e with
  | ScriptSandbox.TimerFired _ => false
  | ScriptSandbox.Message id _ | ScriptSandbox.WorkerError id _ =>
      bool_decide (id = j)
  end.

(** The characters that need no escaping in a URL query: letters,
    digits, [-] and [_]. *)
Definition is_url_safe (c : N) : bool :=
  (((97 <=? c) && (c <=? 122)) || ((65 <=? c) && (c <=? 90))
   || ((48 <=? c) && (c <=? 57)) || (c =? 45) || (c =? 95))%N.

(** The three replacements that [generateState] and
    [generateCodeChallenge] chain after [btoa], on any text. *)
Definition replacements (s : ScriptSandbox.jsstring) : ScriptSandbox.jsstring :=
  OAuthService.remove_all 61
    (OAuthService.replace_all 47 95 (OAuthService.replace_all 43 45 s)).

(** * Properties *)

(** ** Circular buffer: index invariant and read-back *)

Section CircularBufferFacts.
Context {A : Type} (zero : A) (fround : A → A).
Import CircularBuffer.
Local Open Scope Z_scope.

Lemma rem_range (a n : Z) :
  0 < n → 0 <= a < 2 * n →
  Z.rem a n = if a <? n then a else a - n.
Proof.
  intros Hn Ha. rewrite Z.rem_mod_nonneg by lia.
  destruct (Z.ltb_spec a n).
  - apply Z.mod_small; lia.
  - symmetry. apply (Z.mod_unique_pos a n 1 (a - n)); lia.
Qed.

Lemma new_wf (n : Z) (cb : CircularBuffer.t A) :
  0 < n → new zero n = Some cb → wf cb ∧ size cb = n.
Proof.
  unfold new. intros Hn H.
  destruct (Z.ltb_spec n 0); [lia|]. injection H as <-.
  repeat split; simpl; try done.
  - by rewrite length_replicate.
  - exists 0. split; [done | lia].
Qed.

Lemma write_size (cb : CircularBuffer.t A) (x : A) :
  size (write fround cb x) = size cb.
Proof. done. Qed.

Lemma writes_size (xs : list A) (cb : CircularBuffer.t A) :
  size (writes fround cb xs) = size cb.
Proof.
  revert cb. induction xs as [|x xs IH]; intros cb; [done|].
  unfold writes in *. simpl. by rewrite IH.
Qed.

(** What one [write] does to a well-formed buffer, with the wrap-around
    of the index written out. *)
Lemma write_spec (cb : CircularBuffer.t A) (x : A) (w : Z) :
  wf cb → writeIndex cb = JS.Num w →
  buffer (write fround cb x) = <[Z.to_nat w := fround x]> (buffer cb) ∧
  writeIndex (write fround cb x) =
    JS.Num (if w + 1 <? size cb then w + 1 else 0).
Proof.
  intros (Hn & Hlen & w' & Hw' & Hr) Hw.
  rewrite Hw in Hw'. injection Hw' as <-.
  unfold write; simpl. rewrite Hw; simpl. split.
  - destruct (Z.leb_spec 0 w); [done | lia].
  - unfold JS.rem. destruct (Z.eqb_spec (size cb) 0); [lia|].
    rewrite rem_range by lia.
    destruct (Z.ltb_spec (w + 1) (size cb)); [done|]. f_equal; lia.
Qed.

Lemma write_wf (cb : CircularBuffer.t A) (x : A) :
  wf cb → wf (write fround cb x).
Proof.
  intros Hwf. pose proof Hwf as (Hn & Hlen & w & Hw & Hr).
  destruct (write_spec cb x w Hwf Hw) as [Hb Hi].
  split; [by rewrite write_size|]. split.
  - rewrite Hb, length_insert, write_size. done.
  - rewrite Hi, write_size. eexists; split; [done|].
    destruct (Z.ltb_spec (w + 1) (size cb)); lia.
Qed.

Lemma writes_snoc (cb : CircularBuffer.t A) (xs : list A) (x : A) :
  writes fround cb (xs ++ [x]) = write fround (writes fround cb xs) x.
Proof. unfold writes. by rewrite foldl_snoc. Qed.

Lemma writes_wf (xs : list A) (cb : CircularBuffer.t A) :
  wf cb → wf (writes fround cb xs).
Proof.
  intros Hwf. induction xs as [|x xs IH] using rev_ind; [done|].
  rewrite writes_snoc. by apply write_wf.
Qed.

(** What [read] computes on a well-formed buffer: the slot [d] places
    behind the write index, wrapping once. *)
Lemma read_spec (cb : CircularBuffer.t A) (w d : Z) :
  wf cb → writeIndex cb = JS.Num w → 0 <= d <= size cb →
  read cb d =
    buffer cb !! Z.to_nat (if d <=? w then w - d else w - d + size cb).
Proof.
  intros (Hn & Hlen & w' & Hw' & Hr) Hw Hd.
  rewrite Hw in Hw'. injection Hw' as <-.
  unfold read; simpl. rewrite Hw; simpl.
  unfold JS.rem. destruct (Z.eqb_spec (size cb) 0); [lia|].
  rewrite rem_range by lia. simpl.
  destruct (Z.ltb_spec (w - d + size cb) (size cb)),
           (Z.leb_spec d w); try lia.
  - destruct (Z.leb_spec 0 (w - d + size cb)); [done | lia].
  - destruct (Z.leb_spec 0 (w - d + size cb - size cb)); [|lia].
    do 2 f_equal; lia.
Qed.

(** Reading [d] back after at least [d] writes returns the [d]-th most
    recent sample, as the store converted it. *)
Lemma read_writes (cb : CircularBuffer.t A) (xs : list A) (d : Z) :
  wf cb → 1 <= d <= size cb → d <= Z.of_nat (length xs) →
  read (writes fround cb xs) d = fround <$> rev xs !! Z.to_nat (d - 1).
Proof.
  intros Hwf. revert d.
  induction xs as [|x xs IH] using rev_ind; intros d Hd Hlen.
  { simpl in Hlen. lia. }
  rewrite writes_snoc, rev_app_distr. simpl.
  pose proof (writes_wf xs cb Hwf) as Hwf'.
  pose proof Hwf' as (Hn & Hl & w & Hw & Hr).
  rewrite writes_size in *.
  destruct (write_spec _ x w Hwf' Hw) as [Hb Hi].
  rewrite writes_size in Hi.
  rewrite (read_spec _ _ d (write_wf _ x Hwf') Hi)
    by (rewrite write_size, writes_size; lia).
  rewrite write_size, writes_size, Hb.
  destruct (Z.eq_dec d 1) as [->|Hd1].
  - replace (Z.to_nat (1 - 1)) with 0%nat by lia. simpl.
    assert (Hix : (if 1 <=? (if w + 1 <? size cb then w + 1 else 0)
                   then (if w + 1 <? size cb then w + 1 else 0) - 1
                   else (if w + 1 <? size cb then w + 1 else 0) - 1 + size cb)
                  = w).
    { destruct (Z.ltb_spec (w + 1) (size cb)).
      - destruct (Z.leb_spec 1 (w + 1)); lia.
      - simpl. lia. }
    rewrite Hix. apply list_lookup_insert_eq. lia.
  - rewrite length_app in Hlen. simpl in Hlen.
    specialize (IH (d - 1) ltac:(lia) ltac:(lia)).
    rewrite (read_spec _ w (d - 1) Hwf' Hw) in IH
      by (rewrite writes_size; lia).
    rewrite writes_size in IH.
    replace (Z.to_nat (d - 1)) with (S (Z.to_nat (d - 1 - 1))) by lia.
    simpl. rewrite <- IH.
    rewrite list_lookup_insert_ne.
    + f_equal. f_equal.
      destruct (Z.ltb_spec (w + 1) (size cb)),
               (Z.leb_spec (d - 1) w); 
      repeat match goal with
             | |- context [?a <=? ?b] => destruct (Z.leb_spec a b)
             end; lia.
    + destruct (Z.ltb_spec (w + 1) (size cb));
      repeat match goal with
             | |- context [?a <=? ?b] => destruct (Z.leb_spec a b)
             end; lia.
Qed.

(** A buffer of capacity 0 can be built, but it has no slot: the first
    write stores nothing and turns the write index into [NaN]. *)
Lemma write_capacity_zero (x : A) :
  ∃ cb, new zero 0 = Some cb ∧
        buffer (write fround cb x) = [] ∧ writeIndex (write fround cb x) = JS.NaN.
Proof. eexists. by repeat split. Qed.

(** The same, for a buffer fresh from the constructor. *)
Lemma new_read_writes (n : Z) (cb0 : CircularBuffer.t A) (xs : list A) (d : Z) :
  0 < n → new zero n = Some cb0 →
  1 <= d <= n → d <= Z.of_nat (length xs) →
  ∃ x, rev xs !! Z.to_nat (d - 1) = Some x ∧
       read (writes fround cb0 xs) d = Some (fround x).
Proof.
  intros Hn Hnew Hd Hl.
  destruct (new_wf n cb0 Hn Hnew) as [Hwf Hsz].
  destruct (lookup_lt_is_Some_2 (rev xs) (Z.to_nat (d - 1))) as [x Hx].
  { rewrite length_rev. lia. }
  exists x. split; [done|].
  rewrite read_writes, ?Hx; [done..| |]; rewrite ?Hsz; lia.
Qed.

End CircularBufferFacts.

(** ** Delay line *)

Section DelayLineFacts.
Context {A : Type} (zero : A) (fround : A → A).
Local Open Scope Z_scope.

Lemma process_buffer (dl : DelayLine.t A) (x : A) (d : Q) :
  DelayLine.buffer (DelayLine.process fround dl x d).1 =
  CircularBuffer.write fround (DelayLine.buffer dl) x.
Proof. done. Qed.

(** The buffer after a run of [process] calls holds the inputs of the
    run, whatever the delay times were. *)
Lemma run_buffer (calls : list (A * Q)) (dl : DelayLine.t A) :
  DelayLine.buffer (DelayLine.run fround dl calls).1 =
  CircularBuffer.writes fround (DelayLine.buffer dl) (calls.*1).
Proof.
  revert dl. induction calls as [|[x d] calls IH]; intros dl; [done|].
  simpl. destruct (DelayLine.run _ _ calls) as [dl2 ys] eqn:E.
  simpl. change dl2 with (dl2, ys).1. rewrite <- E, IH. done.
Qed.

Lemma new_buffer (n : Z) (dl : DelayLine.t A) :
  DelayLine.new zero n = Some dl →
  CircularBuffer.new zero n = Some (DelayLine.buffer dl).
Proof.
  unfold DelayLine.new. destruct (CircularBuffer.new zero n); [|done].
  by intros [= <-].
Qed.

(** With delay 0 the read index is the advanced write index: the slot
    that the next write will overwrite. *)
Lemma process_zero_delay_slot (dl : DelayLine.t A) (x : A) (w : Z) :
  CircularBuffer.wf (DelayLine.buffer dl) →
  CircularBuffer.writeIndex (DelayLine.buffer dl) = JS.Num w →
  (DelayLine.process fround dl x 0%Q).2 =
    <[Z.to_nat w := fround x]> (CircularBuffer.buffer (DelayLine.buffer dl))
      !! Z.to_nat (if w + 1 <? CircularBuffer.size (DelayLine.buffer dl)
                   then w + 1 else 0).
Proof.
  intros Hwf Hw. unfold DelayLine.process; simpl.
  change (0 `div` 1) with 0.
  destruct (write_spec fround _ x w Hwf Hw) as [Hb Hi].
  pose proof Hwf as (Hn & _ & w' & Hw' & Hr).
  rewrite Hw in Hw'. injection Hw' as <-.
  rewrite (read_spec _ _ 0 (write_wf fround _ x Hwf) Hi)
    by (rewrite write_size; lia).
  rewrite Hb. f_equal. f_equal.
  destruct (Z.ltb_spec (w + 1) (CircularBuffer.size (DelayLine.buffer dl)));
    match goal with |- context [?a <=? ?b] => destruct (Z.leb_spec a b) end;
    lia.
Qed.

(** In a delay line of two or more slots the output at delay 0 does not
    depend on the input at all. *)
Lemma process_zero_delay_ignores_input (dl : DelayLine.t A) (x y : A) :
  CircularBuffer.wf (DelayLine.buffer dl) →
  2 <= CircularBuffer.size (DelayLine.buffer dl) →
  (DelayLine.process fround dl x 0%Q).2 = (DelayLine.process fround dl y 0%Q).2.
Proof.
  intros Hwf Hn. pose proof Hwf as (_ & _ & w & Hw & Hr).
  rewrite !(process_zero_delay_slot dl _ w Hwf Hw).
  rewrite !list_lookup_insert_ne; [done| |];
    destruct (Z.ltb_spec (w + 1) (CircularBuffer.size (DelayLine.buffer dl)));
    lia.
Qed.

(** Only a one-slot delay line hands the input back at delay 0, as the
    store converted it. *)
Lemma process_zero_delay_one_slot (dl : DelayLine.t A) (x : A) :
  CircularBuffer.wf (DelayLine.buffer dl) →
  CircularBuffer.size (DelayLine.buffer dl) = 1 →
  (DelayLine.process fround dl x 0%Q).2 = Some (fround x).
Proof.
  intros Hwf Hn. pose proof Hwf as (_ & Hlen & w & Hw & Hr).
  rewrite (process_zero_delay_slot dl _ w Hwf Hw), Hn.
  assert (w = 0) as -> by lia. simpl.
  apply list_lookup_insert_eq. lia.
Qed.

End DelayLineFacts.

(** ** Claims about the circular buffer and the delay line *)

(** C10, the claim as stated fails.  The double nearest to 0.1, written
    into a fresh four-slot buffer, is read back at delay 1 as the binary32
    value nearest to it, 0.100000001490116..., not as the sample written;
    and a buffer of capacity 0, which the constructor accepts, has the
    write index [NaN] after its first write. *)
Lemma CircularBuffer_read_back_counterexample :
  (∃ cb0, CircularBuffer.new 0%float 4 = Some cb0 ∧
     CircularBuffer.read
       (CircularBuffer.write Float32Array.fround cb0
          0x1.999999999999ap-4%float) 1
     = Some 0x1.99999ap-4%float ∧
     0x1.99999ap-4%float ≠ 0x1.999999999999ap-4%float) ∧
  (∃ cb0, CircularBuffer.new 0%float 0 = Some cb0 ∧
     CircularBuffer.writeIndex
       (CircularBuffer.write Float32Array.fround cb0 1%float)
     = JS.NaN).
Proof.
  split.
  - eexists. split; [reflexivity|]. split; [vm_compute; reflexivity|].
    intros H.
    assert (E : (0x1.99999ap-4 =? 0x1.999999999999ap-4)%float = true)
      by (rewrite H; vm_compute; reflexivity).
    vm_compute in E. discriminate.
  - eexists. split; reflexivity.
Qed.

(** C10, amended.  A circular buffer built with a capacity of at least 1
    keeps, through any sequence of writes, its capacity, a buffer of that
    many slots and a write index in [0, capacity); and for every delay
    [d] with [1 <= d <= capacity], once at least [d] samples have been
    written, [read d] returns the sample written [d] write calls ago as
    the store converted it: its binary32 rounding, which is the sample
    itself when binary32 holds it. *)
Theorem CircularBuffer_invariant_and_read_back
    {A : Type} (zero : A) (fround : A → A) (n : Z)
    (cb0 : CircularBuffer.t A) (xs : list A) :
  (0 < n)%Z →
  CircularBuffer.new zero n = Some cb0 →
  let cb := CircularBuffer.writes fround cb0 xs in
  CircularBuffer.size cb = n ∧
  length (CircularBuffer.buffer cb) = Z.to_nat n ∧
  (∃ w, CircularBuffer.writeIndex cb = JS.Num w ∧ (0 <= w < n)%Z) ∧
  ∀ d : Z, (1 <= d <= n)%Z → (d <= Z.of_nat (length xs))%Z →
    ∃ x, rev xs !! Z.to_nat (d - 1) = Some x ∧
         CircularBuffer.read cb d = Some (fround x) ∧
         (fround x = x → CircularBuffer.read cb d = Some x).
Proof.
  intros Hn Hnew cb.
  destruct (new_wf zero n cb0 Hn Hnew) as [Hwf Hsz].
  pose proof (writes_wf fround xs cb0 Hwf) as (_ & Hlen & w & Hw & Hr).
  fold cb in Hlen, Hw, Hr.
  assert (Hs : CircularBuffer.size cb = n)
    by (unfold cb; by rewrite writes_size).
  rewrite Hs in *. repeat split; try done.
  - by exists w.
  - intros d Hd Hl.
    destruct (new_read_writes zero fround n cb0 xs d Hn Hnew Hd Hl)
      as (x & Hx & Hread).
    exists x. split; [done|]. split; [done|]. intros Hfix.
    unfold cb. by rewrite Hread, Hfix.
Qed.

(** A three-slot buffer after the writes 11, 12, 13, 0.1, 15: the delay 2
    reads the binary32 rounding of 0.1, and the delay 1 reads 15. *)
Lemma CircularBuffer_invariant_and_read_back_witness :
  ∃ cb0, CircularBuffer.new 0%float 3 = Some cb0 ∧
         CircularBuffer.read
           (CircularBuffer.writes Float32Array.fround cb0
              [11; 12; 13; 0x1.999999999999ap-4; 15]%float) 2
         = Some 0x1.99999ap-4%float.
Proof.
  eexists. split; [reflexivity|].
  destruct (CircularBuffer_invariant_and_read_back
              0%float Float32Array.fround 3 _
              [11; 12; 13; 0x1.999999999999ap-4; 15]%float
              ltac:(lia) eq_refl)
    as (_ & _ & _ & Hread).
  destruct (Hread 2%Z ltac:(lia) ltac:(simpl; lia)) as (x & Hx & Hr & _).
  simpl in Hx. injection Hx as <-. rewrite Hr. vm_compute. reflexivity.
Defined.

(** C1, evaluated on the code.  A fresh four-slot delay line fed 5 and
    then 7, both with delay 0, answers 0 twice: the read happens after the
    write index has advanced, so delay 0 addresses the oldest slot and not
    the sample just written. *)
Theorem DelayLine_zero_delay_returns_oldest_slot :
  ∃ dl, DelayLine.new 0%float 4 = Some dl ∧
        (DelayLine.process Float32Array.fround dl 5%float 0%Q).2
        = Some 0%float ∧
        (DelayLine.run Float32Array.fround dl
           [(5%float, 0%Q); (7%float, 0%Q)]).2
        = [Some 0%float; Some 0%float].
Proof. eexists. repeat split; vm_compute; reflexivity. Qed.

(** C5, the claim as stated fails.  After 10, 20, 30 a four-slot delay
    line processing 40 with delay time 3/2 returns the buffered sample 40;
    the interpolation between the samples one and two places back is 35. *)
Lemma DelayLine_interpolation_counterexample :
  ∃ dl0 dl out,
    DelayLine.new 0%float 4 = Some dl0 ∧
    DelayLine.process Float32Array.fround
      (DelayLine.run Float32Array.fround dl0
         [(10%float, 1%Q); (20%float, 1%Q); (30%float, 1%Q)]).1
      40%float (3 # 2) = (dl, out) ∧
    out = Some 40%float ∧
    interpolated_read (DelayLine.buffer dl) (3 # 2) = Some 35%float ∧
    out ≠ interpolated_read (DelayLine.buffer dl) (3 # 2).
Proof.
  eexists _, _, _. split; [reflexivity|].
  split; [vm_compute; reflexivity|].
  split; [reflexivity|]. split; [vm_compute; reflexivity|].
  intros H.
  apply (f_equal (λ o, match o with
                       | Some v => (v =? 35)%float
                       | None => false
                       end)) in H.
  vm_compute in H. discriminate.
Qed.

(** C5, amended.  Whatever the delay time [d], fractional or not, the
    output is the single buffered sample [floor d] places back and equals
    the output for the delay time [floor d]; in a delay line of capacity
    [n] with [1 <= floor d <= n] that has seen at least [floor d] inputs
    (the current one included), it is the input given [floor d - 1] calls
    before the current one, as the store converted it.  No second sample
    and no weight enter. *)
Theorem DelayLine_process_truncates_delay
    {A : Type} (zero : A) (fround : A → A) (n : Z) (dl0 : DelayLine.t A)
    (calls : list (A * Q)) (x : A) (d : Q) :
  (0 < n)%Z →
  DelayLine.new zero n = Some dl0 →
  let dl := (DelayLine.run fround dl0 calls).1 in
  (DelayLine.process fround dl x d).2 =
    (DelayLine.process fround dl x (inject_Z (Qfloor d))).2 ∧
  ((1 <= Qfloor d <= n)%Z →
   (Qfloor d <= Z.of_nat (length calls) + 1)%Z →
   ∃ y, (x :: rev (calls.*1)) !! Z.to_nat (Qfloor d - 1) = Some y ∧
        (DelayLine.process fround dl x d).2 = Some (fround y)).
Proof.
  intros Hn Hnew dl. split.
  - unfold DelayLine.process. cbn [snd]. by rewrite Qfloor_Z.
  - intros Hd Hl.
    apply new_buffer in Hnew.
    destruct (new_read_writes zero fround n _ (calls.*1 ++ [x]) (Qfloor d)
                Hn Hnew)
      as (y & Hy & Hr).
    { done. }
    { rewrite length_app, length_fmap. simpl. lia. }
    exists y. rewrite rev_app_distr in Hy. simpl in Hy. split; [done|].
    unfold DelayLine.process; simpl. unfold dl.
    rewrite run_buffer, <- writes_snoc. done.
Qed.

(** After 10, 20, 30 the input 40 with delay time 5/2 yields 30, the
    sample two places back. *)
Lemma DelayLine_process_truncates_delay_witness :
  ∃ dl0, DelayLine.new 0%float 4 = Some dl0 ∧
    (DelayLine.process Float32Array.fround
       (DelayLine.run Float32Array.fround dl0
          [(10%float, 1%Q); (20%float, 1%Q); (30%float, 1%Q)]).1
       40%float (5 # 2)).2 = Some 30%float.
Proof.
  eexists. split; [reflexivity|].
  destruct (DelayLine_process_truncates_delay
              0%float Float32Array.fround 4 _
              [(10%float, 1%Q); (20%float, 1%Q); (30%float, 1%Q)]
              40%float (5 # 2)
              ltac:(lia) eq_refl) as [_ H].
  destruct H as (y & Hy & Hr).
  - vm_compute. split; discriminate.
  - vm_compute. discriminate.
  - vm_compute in Hy. injection Hy as <-. rewrite Hr. vm_compute. reflexivity.
Defined.

(** ** Envelope follower *)

Section EnvelopeFollowerFacts.
Import EnvelopeFollower.
Local Open Scope R_scope.

(** [process] carries both coefficients over unchanged. *)
Lemma process_coefficients (f : EnvelopeFollower.t) (x : R) :
  attack (process f x).1 = attack f ∧ release (process f x).1 = release f.
Proof. done. Qed.

Lemma run_snoc (f : EnvelopeFollower.t) (xs : list R) (x : R) :
  run f (xs ++ [x]) = (process (run f xs) x).1.
Proof. unfold run. by rewrite foldl_snoc. Qed.

Lemma run_coefficients (xs : list R) (f : EnvelopeFollower.t) :
  attack (run f xs) = attack f ∧ release (run f xs) = release f.
Proof.
  induction xs as [|x xs IH] using rev_ind; [done|].
  rewrite run_snoc. by destruct (process_coefficients (run f xs) x) as [-> ->].
Qed.

(** One step of smoothing, in the convex form [c * env + (1 - c) * |x|]
    for the coefficient [c] that the comparison selects. *)
Lemma process_smoothing (f : EnvelopeFollower.t) (x : R) :
  (envelope f < Rabs x →
   (process f x).2 = attack f * envelope f + (1 - attack f) * Rabs x) ∧
  (¬ envelope f < Rabs x →
   (process f x).2 = release f * envelope f + (1 - release f) * Rabs x).
Proof.
  unfold process; simpl.
  destruct (Rlt_dec (envelope f) (Rabs x)); split; intros; try done; lra.
Qed.

End EnvelopeFollowerFacts.

(** C6. In an envelope follower built from an attack time, a release time
    and a sample rate whose products [attackTime * sampleRate] and
    [releaseTime * sampleRate] are not zero (at a zero product the code
    divides to an infinity, which the real quotient does not follow),
    and after any run of processed samples, the next
    sample [x] replaces the envelope [env] by the exponential smoothing
    [c * env + (1 - c) * |x|] of the rectified input, where [c] is the
    attack coefficient [exp (-1 / (attackTime * sampleRate))] when [|x|]
    exceeds [env] and the release coefficient
    [exp (-1 / (releaseTime * sampleRate))] otherwise; the new envelope is
    the value returned; and both coefficients are still the ones the
    constructor computed: processing never recomputes them. *)
Theorem EnvelopeFollower_smoothing_with_fixed_coefficients
    (attackTime releaseTime sampleRate : R) (xs : list R) (x : R) :
  (attackTime * sampleRate ≠ 0)%R →
  (releaseTime * sampleRate ≠ 0)%R →
  let f := EnvelopeFollower.run
             (EnvelopeFollower.new attackTime releaseTime sampleRate) xs in
  let f' := (EnvelopeFollower.process f x).1 in
  let a := exp (-1 / (attackTime * sampleRate)) in
  let r := exp (-1 / (releaseTime * sampleRate)) in
  let env := EnvelopeFollower.envelope f in
  (EnvelopeFollower.process f x).2 = EnvelopeFollower.envelope f' ∧
  (Rabs x > env →
   EnvelopeFollower.envelope f' = a * env + (1 - a) * Rabs x)%R ∧
  (¬ Rabs x > env →
   EnvelopeFollower.envelope f' = r * env + (1 - r) * Rabs x)%R ∧
  EnvelopeFollower.attack f = a ∧ EnvelopeFollower.release f = r ∧
  EnvelopeFollower.attack f' = a ∧ EnvelopeFollower.release f' = r.
Proof.
  intros _ _ f f' a r env.
  destruct (run_coefficients xs
              (EnvelopeFollower.new attackTime releaseTime sampleRate))
    as [Ha Hr].
  fold f in Ha, Hr. simpl in Ha, Hr. fold a in Ha. fold r in Hr.
  destruct (process_smoothing f x) as [Hup Hdown].
  rewrite Ha in Hup. rewrite Hr in Hdown.
  repeat split; try done.
Qed.

(** A follower with both time constants 1 at sample rate 1, fresh from
    the constructor and fed the sample -2: the envelope rises from 0 to
    [(1 - exp (-1)) * 2]. *)
Lemma EnvelopeFollower_smoothing_with_fixed_coefficients_witness :
  (EnvelopeFollower.envelope
     (EnvelopeFollower.process (EnvelopeFollower.new 1 1 1) (-2)).1
   = exp (-1 / (1 * 1)) * 0 + (1 - exp (-1 / (1 * 1))) * Rabs (-2))%R.
Proof.
  destruct (EnvelopeFollower_smoothing_with_fixed_coefficients
              1 1 1 [] (-2)%R) as (_ & Hup & _); [lra | lra |].
  apply Hup. simpl. unfold Rabs. destruct (Rcase_abs (-2)); lra.
Defined.

(** ** Biquad lowpass at a quarter of the sample rate *)

Section BiquadFacts.
Import BiquadFilter.
Local Open Scope R_scope.

Variable sampleRate : R.
Hypothesis sampleRate_nonzero : sampleRate ≠ 0.

Local Abbreviation lowpass := (quarter_lowpass sampleRate).

(** There [omega] is [PI / 2], so [cos omega = 0] and [sin omega = 1], and
    the five coefficients are rational numbers. *)
Lemma quarter_lowpass_coefficients :
  b0 lowpass = 707 / 2414 ∧
  b1 lowpass = 707 / 1207 ∧
  b2 lowpass = 707 / 2414 ∧
  a1 lowpass = 0 ∧
  a2 lowpass = 207 / 1207.
Proof.
  unfold quarter_lowpass, setLowpass; simpl.
  replace (2 * PI * (sampleRate / 2 / 2) / sampleRate) with (PI / 2)
    by (field; done).
  rewrite cos_PI2, sin_PI2. repeat split; field.
Qed.

(** [process] never touches the coefficients. *)
Lemma state_at_coefficients (f : BiquadFilter.t) (input : nat → R) (n : nat) :
  b0 (state_at f input n) = b0 f ∧ b1 (state_at f input n) = b1 f ∧
  b2 (state_at f input n) = b2 f ∧ a1 (state_at f input n) = a1 f ∧
  a2 (state_at f input n) = a2 f.
Proof. induction n as [|n IH]; [done|]. simpl. exact IH. Qed.

(** The difference equation, read off the history. *)
Lemma output_at_SS (f : BiquadFilter.t) (input : nat → R) (n : nat) :
  output_at f input (S (S n)) =
    b0 f * input (S (S n)) + b1 f * input (S n) + b2 f * input n
    - a1 f * output_at f input (S n) - a2 f * output_at f input n.
Proof.
  destruct (state_at_coefficients f input (S (S n)))
    as (H0 & H1 & H2 & H3 & H4).
  unfold output_at at 1. unfold process. cbn [snd].
  rewrite H0, H1, H2, H3, H4. reflexivity.
Qed.

Lemma output_at_0 (f : BiquadFilter.t) (input : nat → R) :
  output_at f input 0 =
    b0 f * input 0%nat + b1 f * x1 f + b2 f * x2 f
    - a1 f * y1 f - a2 f * y2 f.
Proof. reflexivity. Qed.

Lemma output_at_1 (f : BiquadFilter.t) (input : nat → R) :
  output_at f input 1 =
    b0 f * input 1%nat + b1 f * input 0%nat + b2 f * x1 f
    - a1 f * output_at f input 0 - a2 f * y1 f.
Proof. reflexivity. Qed.

(** Once the input is silent, an output is at most [|a1| + |a2|] times
    the larger of the two outputs before it, whatever the coefficients
    and the history: any filter with [|a1| + |a2| < 1] contracts. *)
Lemma output_at_contracts (f : BiquadFilter.t) (input : nat → R)
    (rho : R) (n : nat) :
  Rabs (a1 f) + Rabs (a2 f) <= rho →
  input n = 0 → input (S n) = 0 → input (S (S n)) = 0 →
  Rabs (output_at f input (S (S n)))
  <= rho * Rmax (Rabs (output_at f input (S n))) (Rabs (output_at f input n)).
Proof.
  intros Hrho H0 H1 H2. rewrite output_at_SS, H0, H1, H2.
  set (u := output_at f input (S n)). set (v := output_at f input n).
  replace (b0 f * 0 + b1 f * 0 + b2 f * 0 - a1 f * u - a2 f * v)
    with (- (a1 f * u) + - (a2 f * v)) by lra.
  eapply Rle_trans; [apply Rabs_triang|].
  rewrite !Rabs_Ropp, !Rabs_mult.
  pose proof (Rmax_l (Rabs u) (Rabs v)).
  pose proof (Rmax_r (Rabs u) (Rabs v)).
  pose proof (Rabs_pos u). pose proof (Rabs_pos v).
  pose proof (Rabs_pos (a1 f)). pose proof (Rabs_pos (a2 f)).
  nra.
Qed.

(** The filter starts from a silent history. *)
Lemma quarter_lowpass_history :
  x1 lowpass = 0 ∧ x2 lowpass = 0 ∧
  y1 lowpass = 0 ∧ y2 lowpass = 0.
Proof. done. Qed.

Local Abbreviation Y := (output_at lowpass unit_impulse).

Lemma impulse_response_0 : Y 0 = 707 / 2414.
Proof.
  destruct quarter_lowpass_coefficients as (H0 & H1 & H2 & H3 & H4).
  destruct quarter_lowpass_history as (Hx1 & Hx2 & Hy1 & Hy2).
  rewrite output_at_0, H0, Hx1, Hx2, Hy1, Hy2.
  cbn [unit_impulse]. lra.
Qed.

Lemma impulse_response_1 : Y 1 = 707 / 1207.
Proof.
  destruct quarter_lowpass_coefficients as (H0 & H1 & H2 & H3 & H4).
  destruct quarter_lowpass_history as (Hx1 & Hx2 & Hy1 & Hy2).
  rewrite output_at_1, H1, H3, Hx1, Hy1.
  cbn [unit_impulse]. lra.
Qed.

Lemma impulse_response_2 : Y 2 = 707 / 2414 * (1000 / 1207).
Proof.
  destruct quarter_lowpass_coefficients as (H0 & H1 & H2 & H3 & H4).
  rewrite output_at_SS, impulse_response_0, H2, H3, H4.
  cbn [unit_impulse]. lra.
Qed.

(** From the third sample on, the input is silent and [a1 = 0]: every
    output is the output two samples earlier, scaled by [- a2]. *)
Lemma impulse_response_step (n : nat) :
  Y (S (S (S n))) = - (207 / 1207) * Y (S n).
Proof.
  destruct quarter_lowpass_coefficients as (H0 & H1 & H2 & H3 & H4).
  rewrite output_at_SS, H3, H4. cbn [unit_impulse]. lra.
Qed.

Lemma impulse_response_step_abs (n : nat) :
  Rabs (Y (S (S (S n)))) = 207 / 1207 * Rabs (Y (S n)).
Proof.
  rewrite impulse_response_step, Rabs_mult, Rabs_Ropp.
  rewrite (Rabs_pos_eq (207 / 1207)); [done | lra].
Qed.

(** Two consecutive samples at a time: the output never vanishes and lies
    under the envelope [2 * (1/2)^n]. *)
Lemma impulse_response_envelope (n : nat) :
  (0 < Rabs (Y (S n)) <= 2 * (1 / 2) ^ S n) ∧
  (0 < Rabs (Y (S (S n))) <= 2 * (1 / 2) ^ S (S n)).
Proof.
  induction n as [|n [IH1 IH2]].
  - rewrite impulse_response_1, impulse_response_2.
    rewrite !Rabs_pos_eq by lra. simpl. lra.
  - split; [exact IH2|].
    rewrite impulse_response_step_abs.
    change ((1 / 2) ^ S (S (S n))) with (1 / 2 * (1 / 2 * (1 / 2) ^ S n)).
    lra.
Qed.

Lemma impulse_response_positive (n : nat) :
  0 < Rabs (Y n) <= 2 * (1 / 2) ^ n.
Proof.
  destruct n as [|n].
  - rewrite impulse_response_0, Rabs_pos_eq by lra. simpl. lra.
  - apply impulse_response_envelope.
Qed.

Lemma impulse_response_decreases (n : nat) :
  Rabs (Y (S (S n))) < Rabs (Y n).
Proof.
  destruct n as [|n].
  - rewrite impulse_response_2, impulse_response_0.
    rewrite !Rabs_pos_eq by lra. lra.
  - rewrite impulse_response_step_abs.
    pose proof (impulse_response_positive (S n)). lra.
Qed.

End BiquadFacts.

Lemma half_pow_le_1 (n : nat) : ((1 / 2) ^ n <= 1)%R.
Proof.
  induction n as [|n IH]; simpl; lra.
Qed.

(** C2. A biquad lowpass set to a cutoff of half the Nyquist frequency
    with Q = 0.707 and fed the unit impulse answers with a sequence [y]
    that stays bounded (by 1), lies under the geometric envelope
    [2 * (1/2)^n], hence tends to 0, and whose magnitude strictly
    decreases from each sample to the one two samples later.  Arithmetic
    is exact (real numbers). *)
Theorem BiquadFilter_lowpass_impulse_response_decays (sampleRate : R) :
  sampleRate ≠ 0%R →
  let y := BiquadFilter.output_at
             (BiquadFilter.setLowpass (BiquadFilter.new sampleRate)
                (sampleRate / 2 / 2) (707 / 1000))
             BiquadFilter.unit_impulse in
  ∀ n : nat,
    (Rabs (y n) <= 1)%R ∧
    (Rabs (y n) <= 2 * (1 / 2) ^ n)%R ∧
    (Rabs (y (S (S n))) < Rabs (y n))%R.
Proof.
  intros Hfs y n.
  pose proof (impulse_response_positive sampleRate Hfs n) as [_ Henv].
  pose proof (impulse_response_decreases sampleRate Hfs n) as Hdec.
  fold (quarter_lowpass sampleRate) in y. fold y in Henv, Hdec.
  repeat split; try done.
  destruct n as [|n].
  - unfold y. rewrite (impulse_response_0 sampleRate Hfs).
    rewrite Rabs_pos_eq; lra.
  - pose proof (half_pow_le_1 n). simpl in Henv. lra.
Qed.

(** At 48 kHz (cutoff 12 kHz) the fourth output sample is smaller in
    magnitude than the second. *)
Lemma BiquadFilter_lowpass_impulse_response_decays_witness :
  (Rabs (BiquadFilter.output_at
           (BiquadFilter.setLowpass (BiquadFilter.new 48000)
              (48000 / 2 / 2) (707 / 1000))
           BiquadFilter.unit_impulse 3)
   < Rabs (BiquadFilter.output_at
             (BiquadFilter.setLowpass (BiquadFilter.new 48000)
                (48000 / 2 / 2) (707 / 1000))
             BiquadFilter.unit_impulse 1))%R.
Proof.
  apply (BiquadFilter_lowpass_impulse_response_decays 48000 ltac:(lra) 1%nat).
Defined.

(** ** The same filter on binary64 *)

Section Biquad64Facts.
Import BiquadFilter64.
Local Open Scope float_scope.

(** The binary64 values of [cos] and [sin] at the double nearest to
    [pi / 2]. *)
Let c0 : float := 0x1.1a62633145c07p-54.
Let lowpass64 : BiquadFilter64.t := quarter_lowpass64 c0 1.
Let y64 : nat → float := output_at lowpass64 unit_impulse.

(** At 48 kHz and 12 kHz, [omega] is exactly the double nearest to
    [pi / 2]. *)
Lemma omega_48kHz :
  (2 * Math_PI * 12000) / fs (new 48000) = 0x1.921fb54442d18p+0.
Proof. vm_compute. reflexivity. Qed.

(** The filter depends on the engine only through the two values. *)
Lemma setLowpass_48kHz (Math_cos Math_sin : float → float) :
  Math_cos 0x1.921fb54442d18p+0 = c0 →
  Math_sin 0x1.921fb54442d18p+0 = 1 →
  setLowpass Math_cos Math_sin (new 48000) 12000 0x1.69fbe76c8b439p-1
  = lowpass64.
Proof.
  intros Hc Hs. unfold setLowpass, lowpass64, quarter_lowpass64, setLowpass.
  cbv zeta. by rewrite omega_48kHz, Hc, Hs.
Qed.

(** After 860 samples the history is all zero, and stays so. *)
Lemma state_at_860 :
  state_at lowpass64 unit_impulse 860 = silent64 c0 1.
Proof. vm_compute. reflexivity. Qed.

Lemma process_silent : process (silent64 c0 1) 0 = (silent64 c0 1, 0).
Proof. vm_compute. reflexivity. Qed.

Lemma state_at_silent (n : nat) :
  state_at lowpass64 unit_impulse (860 + n) = silent64 c0 1.
Proof.
  induction n as [|n IH]; [rewrite Nat.add_0_r; apply state_at_860|].
  replace (860 + S n)%nat with (S (860 + n)) by lia.
  cbn [state_at]. rewrite IH.
  replace (unit_impulse (860 + n)) with 0 by (by destruct n).
  by rewrite process_silent.
Qed.

Lemma output_at_silent (n : nat) : y64 (860 + n) = 0.
Proof.
  unfold y64, output_at. rewrite state_at_silent.
  replace (unit_impulse (860 + n)) with 0 by (by destruct n).
  by rewrite process_silent.
Qed.

Lemma decays64_first : forallb (decays64 y64) (seq 0 860) = true.
Proof. vm_compute. reflexivity. Qed.

(** On binary64 the impulse response is bounded by 1, decreases in
    magnitude every two samples until it is zero, and is exactly zero
    from sample 860 on. *)
Lemma impulse_response_binary64 (Math_cos Math_sin : float → float) (n : nat) :
  Math_cos 0x1.921fb54442d18p+0 = c0 →
  Math_sin 0x1.921fb54442d18p+0 = 1 →
  let y := output_at
             (setLowpass Math_cos Math_sin (new 48000) 12000
                0x1.69fbe76c8b439p-1)
             unit_impulse in
  decays64 y n = true ∧ ((860 <= n)%nat → y n = 0).
Proof.
  intros Hc Hs. rewrite (setLowpass_48kHz _ _ Hc Hs). fold y64. simpl.
  destruct (decide (n < 860)%nat) as [Hlt|Hge].
  - split; [|lia].
    pose proof decays64_first as H. rewrite forallb_forall in H.
    apply H, in_seq. lia.
  - split.
    + replace n with (860 + (n - 860))%nat by lia.
      unfold decays64.
      replace (S (S (860 + (n - 860)))) with (860 + S (S (n - 860)))%nat
        by lia.
      rewrite !output_at_silent. vm_compute. reflexivity.
    + intros _. replace n with (860 + (n - 860))%nat by lia.
      apply output_at_silent.
Qed.

End Biquad64Facts.

(** ** Script sandbox: what the patterns of [validateScript] accept *)

Section PatternFacts.
Import ScriptSandbox.
Local Open Scope N_scope.

Lemma match_here_star (p : pattern) (s : jsstring) :
  match_here (WsStar :: p) s =
    match_here p s
    || match s with
       | x :: s' => is_whitespace x && match_here (WsStar :: p) s'
       | [] => false
       end.
Proof. by destruct s. Qed.

Lemma match_here_sound (p : pattern) (s : jsstring) :
  match_here p s = true → ∃ m rest, s = m ++ rest ∧ matches p m.
Proof.
  revert s. induction p as [|[c|] p IH]; intros s H.
  - exists [], s. split; [done | constructor].
  - destruct s as [|x s]; [done|]. simpl in H.
    apply andb_prop in H as [Hx H]. apply N.eqb_eq in Hx as ->.
    destruct (IH s H) as (m & rest & -> & Hm).
    exists (c :: m), rest. split; [done | by constructor].
  - induction s as [|x s IHs].
    + rewrite match_here_star, orb_false_r in H.
      destruct (IH [] H) as (m & rest & E & Hm).
      exists m, rest. split; [done|].
      by apply (matches_ws p [] m).
    + rewrite match_here_star in H. apply orb_prop in H as [H|H].
      * destruct (IH (x :: s) H) as (m & rest & E & Hm).
        exists m, rest. split; [done|]. by apply (matches_ws p [] m).
      * apply andb_prop in H as [Hx H].
        destruct (IHs H) as (m & rest & -> & Hm).
        inversion Hm as [| |p' ws m' Hws Hm' E1 E2]; subst.
        exists ((x :: ws) ++ m'), rest. split; [done|].
        apply matches_ws; [by constructor | done].
Qed.

Lemma match_here_complete (p : pattern) (m rest : jsstring) :
  matches p m → match_here p (m ++ rest) = true.
Proof.
  intros Hm. induction Hm as [|c p s Hm IH|p ws s Hws Hm IH].
  - done.
  - simpl. by rewrite N.eqb_refl, IH.
  - induction Hws as [|x ws Hx Hws IHws].
    + simpl app. rewrite match_here_star, IH. done.
    + simpl app. rewrite match_here_star. simpl app in IHws.
      rewrite Hx, IHws. apply orb_true_r.
Qed.

Lemma test_unfold (p : pattern) (s : jsstring) :
  test p s =
    match_here p s
    || match s with
       | _ :: s' => test p s'
       | [] => false
       end.
Proof. by destruct s. Qed.

(** [test] finds exactly the strings that contain a match. *)
Lemma test_contains (p : pattern) (code : jsstring) :
  test p code = true ↔ contains p code.
Proof.
  split.
  - induction code as [|x code IH]; simpl; intros H.
    + rewrite orb_false_r in H.
      destruct (match_here_sound p [] H) as (m & rest & E & Hm).
      exists [], m, rest. done.
    + apply orb_prop in H as [H|H].
      * destruct (match_here_sound p _ H) as (m & rest & E & Hm).
        exists [], m, rest. done.
      * destruct (IH H) as (pre & m & post & -> & Hm).
        exists (x :: pre), m, post. done.
  - intros (pre & m & post & -> & Hm).
    induction pre as [|x pre IH]; simpl app; rewrite test_unfold.
    + by rewrite (match_here_complete p m post Hm).
    + rewrite IH. apply orb_true_r.
Qed.

(** When [validateScript] throws and when it returns. *)
Lemma validateScript_returns (code : jsstring) :
  validateScript code = Returns ↔
  (∀ p, p ∈ dangerous → ¬ contains p code) ∧
  (Z.of_nat (length code) <= 10000)%Z.
Proof.
  unfold validateScript.
  destruct (existsb (λ p, test p code) dangerous) eqn:E.
  - split; [done|]. intros [Hno _]. exfalso.
    apply existsb_exists in E as (p & Hin & Ht).
    apply (Hno p); [by apply list_elem_of_In | by apply test_contains].
  - destruct (N.ltb_spec 10000 (N.of_nat (length code))).
    + split; [done|]. intros [_ Hlen]. lia.
    + split; [|done]. intros _. split; [|lia].
      intros p Hin Hc. apply test_contains in Hc.
      assert (existsb (λ p, test p code) dangerous = true); [|congruence].
      apply existsb_exists. exists p. split; [by apply list_elem_of_In | done].
Qed.

Lemma validateScript_throws (code : jsstring) :
  (∃ p, p ∈ dangerous ∧ contains p code) ∨
  (10000 < Z.of_nat (length code))%Z →
  ∃ message, validateScript code = Throws message.
Proof.
  intros H. destruct (validateScript code) eqn:E; [|by eexists].
  apply validateScript_returns in E as [Hno Hlen].
  destruct H as [(p & Hin & Hc)|H]; [by destruct (Hno p Hin) | lia].
Qed.

(** A script that does not pass validation gets no worker: the sandbox is
    left as it was and the caller holds a rejected promise. *)
Lemma executeUserScript_rejected {D : Type}
    (sb : ScriptSandbox.t D) (code : jsstring) (audioData : D)
    (message : string) :
  validateScript code = Throws message →
  executeUserScript sb code audioData = (sb, RejectedAtOnce message).
Proof. unfold executeUserScript. by intros ->. Qed.

(** A script that passes validation gets a worker of its own, running
    the prelude followed by the script. *)
Lemma executeUserScript_started {D : Type}
    (sb : ScriptSandbox.t D) (code : jsstring) (audioData : D) :
  validateScript code = Returns →
  ∃ sb', executeUserScript sb code audioData
           = (sb', Started (length (invocations sb))) ∧
         status_of sb' (length (invocations sb)) = Some Running ∧
         script <$> invocations sb' !! length (invocations sb)
           = Some (sandboxedCode code).
Proof.
  intros Hv. unfold executeUserScript. rewrite Hv.
  eexists. split; [reflexivity|]. unfold status_of. simpl.
  by rewrite list_lookup_middle.
Qed.

End PatternFacts.

(** ** Script sandbox: the timeout path *)

Section TimeoutFacts.
Import ScriptSandbox.
Context {D : Type}.

(** A sandbox whose only invocation has a terminated worker and a spent
    timer no longer reacts to any event. *)
Lemma step_dead (sb : ScriptSandbox.t D) (inv : invocation D) (e : event) :
  invocations sb = [inv] → status inv = Terminated → timer_armed inv = false →
  step sb e = sb.
Proof.
  intros Hinv Hst Htm.
  destruct e as [id|id data|id error]; simpl;
    unfold on_timeout, on_worker; rewrite Hinv;
    (destruct id as [|id]; simpl; [|done]); by rewrite ?Hst, ?Htm.
Qed.

Lemma steps_dead (es : list event) (sb : ScriptSandbox.t D)
    (inv : invocation D) :
  invocations sb = [inv] → status inv = Terminated → timer_armed inv = false →
  steps sb es = sb.
Proof.
  intros Hinv Hst Htm. induction es as [|e es IH] using rev_ind; [done|].
  unfold steps in *. rewrite foldl_snoc, IH. by apply (step_dead sb inv).
Qed.

(** The first call on a fresh sandbox with a script that passes
    validation, followed by the expiry of its timer: the worker is
    terminated, the error of the [throw] is uncaught, and the promise is
    pending then and after any further events. *)
Lemma timeout_leaves_promise_pending (code : jsstring) (audioData : D) :
  validateScript code = Returns →
  ∃ sb1, executeUserScript new code audioData = (sb1, Started 0) ∧
    let sb2 := step sb1 (TimerFired 0) in
    status_of sb2 0 = Some Terminated ∧
    uncaught sb2 = ["Script execution timeout"] ∧
    ∀ es, promise_of (steps sb2 es) 0 = Some Pending.
Proof.
  intros Hv. unfold executeUserScript. rewrite Hv. simpl.
  eexists. split; [reflexivity|]. simpl.
  repeat split; try reflexivity.
  intros es. erewrite steps_dead; reflexivity.
Qed.

End TimeoutFacts.

(** ** Claims about the script sandbox *)

(** C9. A script of more than 10000 code units is rejected whatever it
    contains: [validateScript] throws, and [executeUserScript] hands back
    a rejected promise without creating a worker, leaving the sandbox as
    it was. *)
Theorem validateScript_rejects_oversized_script
    {D : Type} (sb : ScriptSandbox.t D)
    (code : ScriptSandbox.jsstring) (audioData : D) :
  (10000 < Z.of_nat (length code))%Z →
  ∃ message,
    ScriptSandbox.validateScript code = ScriptSandbox.Throws message ∧
    ScriptSandbox.executeUserScript sb code audioData =
      (sb, ScriptSandbox.RejectedAtOnce message).
Proof.
  intros Hlen.
  destruct (validateScript_throws code (or_intror Hlen)) as [message Hm].
  exists message. split; [done|]. by apply executeUserScript_rejected.
Qed.

(** 10001 letters [a]. *)
Lemma validateScript_rejects_oversized_script_witness :
  ∃ message,
    ScriptSandbox.validateScript (replicate (Z.to_nat 10001) 97%N) =
      ScriptSandbox.Throws message ∧
    ScriptSandbox.executeUserScript (ScriptSandbox.new (D := list Q))
      (replicate (Z.to_nat 10001) 97%N) [] =
      (ScriptSandbox.new, ScriptSandbox.RejectedAtOnce message).
Proof.
  apply (validateScript_rejects_oversized_script
           (ScriptSandbox.new (D := list Q))
           (replicate (Z.to_nat 10001) 97%N) []).
  rewrite length_replicate. lia.
Defined.

(** C4, the claim as stated fails.  Four scripts, one for each of timers,
    network, storage and reflection, pass [validateScript], and
    [executeUserScript] starts a worker on each. *)
Lemma validateScript_accepts_restricted_apis :
  Forall
    (λ '(c, text),
       let code := ScriptSandbox.code_units text in
       could_access c code = true ∧
       ScriptSandbox.validateScript code = ScriptSandbox.Returns ∧
       ∃ sb, ScriptSandbox.executeUserScript
               (ScriptSandbox.new (D := list Q)) code [] =
               (sb, ScriptSandbox.Started 0) ∧
             ScriptSandbox.status_of sb 0 = Some ScriptSandbox.Running)
    [ (Timers, "setTimeout(function () {}, 0)");
      (Network, "fetch('https://example.com/')");
      (Storage, "indexedDB.open('samples')");
      (Reflection, "Reflect.ownKeys(self)") ].
Proof.
  repeat constructor; try (vm_compute; reflexivity);
    eexists; split; vm_compute; reflexivity.
Qed.

(** C4, amended.  Validation precedes execution and rejects exactly on
    the seven patterns of [dangerous] and on size.  A script that contains
    a match of one of the patterns ([eval] or [Function], optional white
    space, an opening parenthesis; [constructor], optional white space, an
    opening bracket; [__proto__]; [document.]; [window.]; [global.]) makes
    [validateScript] throw "Script contains unsafe code patterns", and
    [executeUserScript] then creates no worker and leaves the sandbox as
    it was.  A script of at most 10000 code units that contains no such
    match passes, whatever else it uses, and a worker is started on it. *)
Theorem validateScript_rejects_dangerous_patterns
    {D : Type} (sb : ScriptSandbox.t D)
    (code : ScriptSandbox.jsstring) (audioData : D) :
  ((∃ p, p ∈ ScriptSandbox.dangerous ∧ contains p code) →
   ScriptSandbox.validateScript code =
     ScriptSandbox.Throws "Script contains unsafe code patterns" ∧
   ScriptSandbox.executeUserScript sb code audioData =
     (sb, ScriptSandbox.RejectedAtOnce "Script contains unsafe code patterns"))
  ∧
  ((∀ p, p ∈ ScriptSandbox.dangerous → ¬ contains p code) →
   (Z.of_nat (length code) <= 10000)%Z →
   ScriptSandbox.validateScript code = ScriptSandbox.Returns ∧
   ∃ sb', ScriptSandbox.executeUserScript sb code audioData =
            (sb', ScriptSandbox.Started
                    (length (ScriptSandbox.invocations sb))) ∧
          ScriptSandbox.status_of sb'
            (length (ScriptSandbox.invocations sb)) =
            Some ScriptSandbox.Running).
Proof.
  split.
  - intros (p & Hin & Hc).
    assert (Hv : ScriptSandbox.validateScript code =
                 ScriptSandbox.Throws "Script contains unsafe code patterns").
    { unfold ScriptSandbox.validateScript.
      replace (existsb _ ScriptSandbox.dangerous) with true; [done|].
      symmetry. apply existsb_exists. exists p.
      split; [by apply list_elem_of_In | by apply test_contains]. }
    split; [done|]. by apply executeUserScript_rejected.
  - intros Hno Hlen.
    assert (Hv : ScriptSandbox.validateScript code = ScriptSandbox.Returns)
      by by apply validateScript_returns.
    split; [done|].
    destruct (executeUserScript_started sb code audioData Hv)
      as (sb' & He & Hs & _).
    by exists sb'.
Qed.

(** A script calling [eval], with a space before the parenthesis. *)
Lemma validateScript_rejects_dangerous_patterns_witness :
  ScriptSandbox.validateScript (ScriptSandbox.code_units "eval ('1 + 1')") =
    ScriptSandbox.Throws "Script contains unsafe code patterns" ∧
  ScriptSandbox.executeUserScript (ScriptSandbox.new (D := list Q))
    (ScriptSandbox.code_units "eval ('1 + 1')") [] =
    (ScriptSandbox.new,
     ScriptSandbox.RejectedAtOnce "Script contains unsafe code patterns").
Proof.
  apply (validateScript_rejects_dangerous_patterns
           (ScriptSandbox.new (D := list Q)) _ []).
  exists (ScriptSandbox.lit "eval" ++ [ScriptSandbox.WsStar]
          ++ ScriptSandbox.lit "(").
  split.
  - apply list_elem_of_here.
  - apply test_contains. vm_compute. reflexivity.
Defined.

(** C3, evaluated on the code.  The script [while (true) {}] passes
    validation and never answers.  When the timer of its invocation
    expires, the worker is terminated and the error "Script execution
    timeout" leaves the timer callback uncaught; the promise of the
    invocation is neither resolved nor rejected, then or after any later
    events: its caller receives no buffer and no fault, however long it
    waits. *)
Theorem executeUserScript_timeout_never_settles
    {D : Type} (audioData : D) :
  ∃ sb1,
    ScriptSandbox.executeUserScript ScriptSandbox.new
      (ScriptSandbox.code_units "while (true) {}") audioData =
      (sb1, ScriptSandbox.Started 0) ∧
    let sb2 := ScriptSandbox.step sb1 (ScriptSandbox.TimerFired 0) in
    ScriptSandbox.status_of sb2 0 = Some ScriptSandbox.Terminated ∧
    ScriptSandbox.uncaught sb2 = ["Script execution timeout"] ∧
    ∀ es, ScriptSandbox.promise_of (ScriptSandbox.steps sb2 es) 0 =
          Some ScriptSandbox.Pending.
Proof.
  apply timeout_leaves_promise_pending. vm_compute. reflexivity.
Qed.

(** Two invocations in flight on one sandbox: when the timer of the first
    expires, [this.worker] is the worker of the second, which is the one
    terminated; the worker of the first keeps running. *)
Lemma timeout_terminates_latest_worker :
  let code := ScriptSandbox.code_units "while (true) {}" in
  let sb1 := (ScriptSandbox.executeUserScript
                (ScriptSandbox.new (D := list Q)) code []).1 in
  let sb2 := (ScriptSandbox.executeUserScript sb1 code []).1 in
  let sb3 := ScriptSandbox.step sb2 (ScriptSandbox.TimerFired 0) in
  ScriptSandbox.status_of sb3 0 = Some ScriptSandbox.Running ∧
  ScriptSandbox.status_of sb3 1 = Some ScriptSandbox.Terminated.
Proof. vm_compute. done. Qed.

(** ** Graph model: the validation run *)

Section ScheduleFacts.
Import GraphModel.
Variable g : Graph.

Lemma next_Some (placed : list nat) (v : nat) :
  next g placed = Some v → v ∈ ids g ∧ ready g placed v.
Proof.
  unfold next. intros H.
  apply fmap_Some in H as ([k w] & Hfind & ->). simpl.
  apply list_find_Some in Hfind as (Hk & Hready & Hmin).
  split; [by eapply list_elem_of_lookup_2 | done].
Qed.

Lemma next_None (placed : list nat) (v : nat) :
  next g placed = None → v ∈ ids g → ¬ ready g placed v.
Proof.
  unfold next. intros H Hv.
  apply fmap_None in H. rewrite list_find_None, Forall_forall in H.
  by apply H.
Qed.

Lemma chosen_nil : chosen g [].
Proof. intros i v H. by rewrite lookup_nil in H. Qed.

Lemma chosen_snoc (placed : list nat) (v : nat) :
  chosen g placed → next g placed = Some v → chosen g (placed ++ [v]).
Proof.
  intros Hc Hn i w Hi.
  destruct (decide (i < length placed)) as [Hlt|Hge].
  - rewrite lookup_app_l in Hi by done.
    rewrite take_app_le by lia. by apply Hc.
  - apply lookup_lt_Some in Hi as Hlen. rewrite length_app in Hlen.
    simpl in Hlen. assert (i = length placed) as -> by lia.
    rewrite list_lookup_middle in Hi by done. injection Hi as <-.
    by rewrite take_app_length.
Qed.

Lemma schedule_from_chosen (fuel : nat) (placed : list nat) :
  chosen g placed → chosen g (schedule_from g fuel placed).
Proof.
  revert placed. induction fuel as [|fuel IH]; intros placed Hc; [done|].
  simpl. destruct (next g placed) as [v|] eqn:E; [|done].
  apply IH. by apply chosen_snoc.
Qed.

Lemma schedule_chosen : chosen g (schedule g).
Proof. apply schedule_from_chosen, chosen_nil. Qed.

Lemma chosen_NoDup (l : list nat) : chosen g l → NoDup l.
Proof.
  intros Hc. apply NoDup_alt. intros i j x Hi Hj.
  assert (Hlt : ∀ a b, l !! a = Some x → l !! b = Some x → ¬ a < b).
  { intros a b Ha Hb Hab.
    destruct (next_Some _ _ (Hc b x Hb)) as (_ & [Hnot _]).
    apply Hnot. apply list_elem_of_lookup. exists a.
    by rewrite lookup_take_lt. }
  destruct (Nat.lt_trichotomy i j) as [H|[H|H]]; [|done|].
  - by destruct (Hlt i j).
  - by destruct (Hlt j i).
Qed.

Lemma chosen_ids (l : list nat) (v : nat) : chosen g l → v ∈ l → v ∈ ids g.
Proof.
  intros Hc (i & Hi)%list_elem_of_lookup.
  by destruct (next_Some _ _ (Hc i v Hi)) as (? & _).
Qed.

(** In a chosen list the providers of an entry stand before it. *)
Lemma chosen_providers_before (l : list nat) (i : nat) (u v : nat) :
  chosen g l → l !! i = Some v → u ∈ providers g v →
  ∃ j, j < i ∧ l !! j = Some u.
Proof.
  intros Hc Hi Hu.
  destruct (next_Some _ _ (Hc i v Hi)) as (_ & [_ Hall]).
  rewrite Forall_forall in Hall.
  apply Hall, list_elem_of_lookup in Hu as [j Hj].
  apply lookup_take_Some in Hj as [Hj Hlt]. by exists j.
Qed.

(** A provider is the source of a connection into the node. *)
Lemma providers_connection (u v : nat) :
  u ∈ providers g v ↔
  ∃ c, c ∈ connections g ∧ source_node c = u ∧ destination_node c = v ∧
       feedback_source g c = false.
Proof.
  unfold providers. rewrite list_elem_of_omap. split.
  - intros (c & Hc & H). exists c. apply elem_of_elements in Hc.
    destruct (bool_decide_reflect (destination_node c = v)); [|done].
    destruct (feedback_source g c); [done|]. simpl in H.
    injection H as <-. done.
  - intros (c & Hc & <- & <- & Hf). exists c.
    split; [by apply elem_of_elements|].
    by rewrite bool_decide_eq_true_2, Hf.
Qed.

End ScheduleFacts.

Section ScheduleComplete.
Import GraphModel.
Variable g : Graph.

Lemma tc_flip_dependency (x y : nat) :
  tc (flip (dependency g)) x y → tc (dependency g) y x.
Proof.
  induction 1 as [x y H|x y z H _ IH].
  - by apply tc_once.
  - eapply tc_r; [exact IH | exact H].
Qed.

Lemma provider_in_ids (u v : nat) :
  no_dangling g → u ∈ providers g v → u ∈ ids g ∧ v ∈ ids g.
Proof.
  intros Hnd (c & Hc & <- & <- & _)%providers_connection. by apply Hnd.
Qed.

Lemma tc_dependency_in_ids (u v : nat) :
  no_dangling g → tc (dependency g) u v → u ∈ ids g.
Proof.
  intros Hnd [x y H|x y z H _]; by destruct (provider_in_ids _ _ Hnd H).
Qed.

(** Dependencies are well founded in a valid graph: there are finitely
    many nodes and no cycle. *)
Lemma dependency_acc (v : nat) :
  no_dangling g → acyclic g → Acc (dependency g) v.
Proof.
  intros Hnd Hac.
  apply (tc_finite_sn (R := flip (dependency g))).
  - intros x Hx. by apply (Hac x), tc_flip_dependency.
  - exists (ids g). intros y Hy. apply tc_flip_dependency in Hy.
    by apply (tc_dependency_in_ids y v).
Qed.

(** As long as a node is waiting, some node is ready. *)
Lemma ready_exists (placed : list nat) (v : nat) :
  no_dangling g → acyclic g → v ∈ ids g → v ∉ placed →
  ∃ w, w ∈ ids g ∧ ready g placed w.
Proof.
  intros Hnd Hac Hv Hnot.
  induction (dependency_acc v Hnd Hac) as [v _ IH].
  destruct (decide (Forall (.∈ placed) (providers g v))) as [Hall|Hex].
  - exists v. by split.
  - apply not_Forall_Exists in Hex; [|apply _].
    apply Exists_exists in Hex as (u & Hu & Hup).
    apply (IH u); [done | by destruct (provider_in_ids u v Hnd Hu) | done].
Qed.

Lemma schedule_from_complete (fuel : nat) (placed : list nat) :
  NoDup (ids g) → no_dangling g → acyclic g →
  chosen g placed → length placed + fuel = length (ids g) →
  schedule_from g fuel placed ≡ₚ ids g.
Proof.
  intros Hnd Hdang Hac. revert placed.
  induction fuel as [|fuel IH]; intros placed Hc Hlen; simpl.
  - apply submseteq_length_Permutation; [|lia].
    apply NoDup_submseteq; [by apply (chosen_NoDup g)|].
    intros x. by apply chosen_ids.
  - destruct (next g placed) as [v|] eqn:E.
    + apply IH; [by apply chosen_snoc|]. rewrite length_app. simpl. lia.
    + exfalso.
      assert (Hall : ∀ x, x ∈ ids g → x ∈ placed).
      { intros x Hx. destruct (decide (x ∈ placed)) as [|Hn]; [done|].
        destruct (ready_exists placed x Hdang Hac Hx Hn) as (w & Hw & Hr).
        by destruct (next_None g placed w E Hw). }
      apply (NoDup_submseteq _ _ Hnd), submseteq_length in Hall. lia.
Qed.

(** In a valid graph the order reaches every node, each once. *)
Lemma schedule_complete : valid g → schedule g ≡ₚ ids g.
Proof.
  intros (Hnd & Hdang & Hac). unfold schedule.
  apply schedule_from_complete; [done | done | done | apply chosen_nil |].
  unfold ids. by rewrite length_fmap.
Qed.

(** Conversely, an order that reaches every node rules out a cycle. *)
Lemma schedule_full_acyclic :
  no_dangling g → length (schedule g) = length (nodes g) → acyclic g.
Proof.
  intros Hdang Hlen.
  pose proof (schedule_chosen g) as Hc.
  assert (Hperm : schedule g ≡ₚ ids g).
  { apply submseteq_length_Permutation.
    - apply NoDup_submseteq; [by apply (chosen_NoDup g)|].
      intros x. by apply chosen_ids.
    - unfold ids. rewrite length_fmap. lia. }
  assert (Hpos : ∀ u v, tc (dependency g) u v →
            ∀ j, schedule g !! j = Some v →
                 ∃ i, i < j ∧ schedule g !! i = Some u).
  { induction 1 as [u v H|u w v H _ IH]; intros j Hj.
    - by apply (chosen_providers_before g _ j u v).
    - destruct (IH j Hj) as (k & Hk & Hw).
      destruct (chosen_providers_before g _ k u w Hc Hw H) as (i & Hi & Hu).
      exists i. split; [lia | done]. }
  intros v Hcyc.
  assert (Hv : v ∈ ids g) by by apply (tc_dependency_in_ids v v).
  rewrite <- Hperm in Hv. apply list_elem_of_lookup in Hv as [j Hj].
  destruct (Hpos v v Hcyc j Hj) as (i & Hi & Hi').
  pose proof (chosen_NoDup g _ Hc) as Hnd.
  assert (i = j) by (eapply NoDup_lookup; eauto). lia.
Qed.

(** The executable check decides validity. *)
Lemma well_formed_valid : well_formed g = true ↔ valid g.
Proof.
  unfold well_formed, valid. rewrite !andb_true_iff, !bool_decide_eq_true.
  split.
  - intros [[Hnd Hdang] Hlen]. split; [done|].
    assert (no_dangling g) by (intros c Hc; by apply Hdang).
    split; [done|]. by apply schedule_full_acyclic.
  - intros (Hnd & Hdang & Hac). split; [split; [done|]|].
    + intros c Hc. by apply Hdang.
    + rewrite (schedule_complete (conj Hnd (conj Hdang Hac))).
      unfold ids. by rewrite length_fmap.
Qed.

End ScheduleComplete.

(** ** Graph model: order in a list *)

Section BeforeFacts.




Lemma before_app_r (k l : list nat) (u v : nat) :
  before l u v → before (k ++ l) u v.
Proof.
  intros (l1 & l2 & l3 & ->). exists (k ++ l1), l2, l3.
  by rewrite <- app_assoc.
Qed.






End BeforeFacts.

(** ** Graph model: chains of connections *)

Section ConnectedFacts.
Import GraphModel.
Variable g : Graph.



Lemma dependency_connected (u w : nat) :
  dependency g u w → connected g u w.
Proof.
  intros (c & Hc & Hu & Hw & _)%providers_connection. by exists c.
Qed.



End ConnectedFacts.

(** ** Graph model: the depth-first traversal *)

Section VisitFacts.
Import GraphModel.
Variable g : Graph.
Hypothesis g_valid : valid g.





End VisitFacts.

Section OrderFacts.
Import GraphModel.
Variable g : Graph.
Hypothesis g_valid : valid g.


End OrderFacts.

(** ** Graph model: serialization *)

Section SerializationFacts.
Import GraphModel.

Lemma deserialize_serialize_node (n : Node) :
  deserialize_node (serialize_node n) = reset_state n.
Proof.
  unfold deserialize_node, serialize_node, reset_state; simpl.
  by rewrite list_to_map_to_list.
Qed.

Lemma build_serialize (g : Graph) : build (serialize g) = reset g.
Proof.
  unfold build, serialize, reset; simpl. f_equal.
  - rewrite <- list_fmap_compose. apply list_fmap_ext.
    intros i n _. apply deserialize_serialize_node.
  - apply list_to_set_elements_L.
Qed.

Lemma ids_reset (g : Graph) : ids (reset g) = ids g.
Proof. unfold ids, reset; simpl. by rewrite <- list_fmap_compose. Qed.

Lemma node_of_reset (g : Graph) (v : nat) :
  node_of (reset g) v = reset_state <$> node_of g v.
Proof.
  unfold node_of, reset; simpl. rewrite list_find_fmap.
  unfold compose; simpl.
  destruct (list_find (λ n, id n = v) (nodes g)) as [[i n]|]; done.
Qed.

Lemma feedback_source_reset (g : Graph) (c : Connection) :
  feedback_source (reset g) c = feedback_source g c.
Proof.
  unfold feedback_source. rewrite node_of_reset.
  by destruct (node_of g (source_node c)).
Qed.

Lemma providers_reset (g : Graph) (v : nat) :
  providers (reset g) v = providers g v.
Proof.
  unfold providers. simpl. apply list_omap_ext.
  apply Forall2_same_length_lookup_2; [done|].
  intros i c c' Hc Hc'. rewrite Hc in Hc'. injection Hc' as <-.
  by rewrite feedback_source_reset.
Qed.

Lemma valid_reset (g : Graph) : valid g → valid (reset g).
Proof.
  intros (Hnd & Hdang & Hac). split; [by rewrite ids_reset|]. split.
  - intros c Hc. rewrite ids_reset. by apply Hdang.
  - intros v Hv. apply (Hac v).
    eapply tc_congruence with (f := λ x : nat, x); [|exact Hv].
    intros x y. unfold dependency. by rewrite providers_reset.
Qed.

End SerializationFacts.

(** ** Claims about the graph model *)

Lemma example_graph_valid : GraphModel.valid example_graph.
Proof. apply well_formed_valid. vm_compute. reflexivity. Qed.






(** C8. Serializing a valid graph and deserializing the document
    succeeds and gives a graph with the same nodes in the same order,
    with identical ids, categories, type identifiers, parameter maps and
    positions (only the internal processing state starts afresh), and
    with the identical connection set. *)
Theorem serialize_deserialize_round_trip (g : GraphModel.Graph) :
  GraphModel.valid g →
  ∃ g', GraphModel.deserialize (GraphModel.serialize g) = Some g' ∧
        GraphModel.nodes g' = reset_state <$> GraphModel.nodes g ∧
        GraphModel.ids g' = GraphModel.ids g ∧
        GraphModel.parameters <$> GraphModel.nodes g' =
          GraphModel.parameters <$> GraphModel.nodes g ∧
        GraphModel.connections g' = GraphModel.connections g ∧
        GraphModel.valid g'.
Proof.
  intros Hvalid. exists (reset g).
  unfold GraphModel.deserialize. rewrite build_serialize.
  pose proof (valid_reset g Hvalid) as Hv'.
  rewrite (proj2 (well_formed_valid (reset g)) Hv').
  split; [done|]. split; [done|]. split; [apply ids_reset|].
  split; [|done]. simpl. by rewrite <- list_fmap_compose.
Qed.

(** The example graph comes back with its four parameter maps and its
    four connections. *)
Lemma serialize_deserialize_round_trip_witness :
  ∃ g', GraphModel.deserialize (GraphModel.serialize example_graph) = Some g' ∧
        GraphModel.parameters <$> GraphModel.nodes g' =
          [ {[ "gain" := 1%Q ]}; {[ "gain" := 1 # 2 ]};
            {[ "gain" := 1 # 4 ]}; {[ "gain" := 1%Q ]} ] ∧
        GraphModel.connections g' = GraphModel.connections example_graph.
Proof.
  destruct (serialize_deserialize_round_trip example_graph example_graph_valid)
    as (g' & Hd & _ & _ & Hp & Hc & _).
  exists g'. split; [done|]. split; [|done]. exact Hp.
Defined.

(** * Further properties of the code *)

(** ** Biquad filter: bypass and gain at the Nyquist frequency *)

Section BiquadFurther.
Import BiquadFilter.
Local Open Scope R_scope.

(** X1. A filter fresh from the constructor is a bypass: whatever has
    been fed before, every output sample is the input sample. *)
Theorem BiquadFilter_new_is_bypass (sampleRate : R) (input : nat → R) (n : nat) :
  output_at (new sampleRate) input n = input n.
Proof.
  destruct (state_at_coefficients (new sampleRate) input n)
    as (H0 & H1 & H2 & H3 & H4).
  unfold output_at, process. cbn [snd].
  rewrite H0, H1, H2, H3, H4. simpl. lra.
Qed.



End BiquadFurther.


(** ** Circular buffer: slots never written, delays out of range *)

Section CircularBufferFurther.
Context {A : Type} (zero : A) (fround : A → A).
Import CircularBuffer.
Local Open Scope Z_scope.

(** Until the buffer wraps, the samples written fill it from the left
    and the rest is still zero. *)
Lemma writes_before_wrap (n : Z) (cb0 : CircularBuffer.t A) (xs : list A) :
  0 < n → new zero n = Some cb0 → Z.of_nat (length xs) < n →
  buffer (writes fround cb0 xs)
    = (fround <$> xs) ++ replicate (Z.to_nat n - length xs) zero ∧
  writeIndex (writes fround cb0 xs) = JS.Num (Z.of_nat (length xs)).
Proof.
  intros Hn Hnew. destruct (new_wf zero n cb0 Hn Hnew) as [Hwf Hsz].
  induction xs as [|x xs IH] using rev_ind; intros Hlen.
  - unfold new in Hnew. destruct (n <? 0); [done|].
    injection Hnew as <-. simpl. split; [|done]. f_equal. lia.
  - rewrite length_app in *. simpl in Hlen.
    destruct IH as [Hb Hw]; [lia|].
    rewrite writes_snoc.
    destruct (write_spec fround _ x _ (writes_wf fround xs cb0 Hwf) Hw)
      as [Hb' Hw'].
    rewrite writes_size, Hsz in Hw'. split.
    + rewrite Hb', Hb, Nat2Z.id.
      rewrite insert_app_r_alt by (rewrite length_fmap; lia).
      rewrite length_fmap, Nat.sub_diag.
      replace (Z.to_nat n - length xs)%nat
        with (S (Z.to_nat n - (length xs + 1)))%nat by lia.
      simpl. by rewrite fmap_app, <- app_assoc.
    + rewrite Hw'. destruct (Z.ltb_spec (Z.of_nat (length xs) + 1) n); [|lia].
      f_equal. simpl. lia.
Qed.

(** X9. A delay that reaches further back than the samples written so
    far reads the initial zero: after [k] writes into a fresh buffer of
    capacity [n], [read d] is zero for every [d] with [k < d <= n]. *)
Theorem CircularBuffer_read_before_first_write
    (n : Z) (cb0 : CircularBuffer.t A) (xs : list A) (d : Z) :
  0 < n → new zero n = Some cb0 →
  Z.of_nat (length xs) < d <= n →
  read (writes fround cb0 xs) d = Some zero.
Proof.
  intros Hn Hnew Hd.
  destruct (new_wf zero n cb0 Hn Hnew) as [Hwf Hsz].
  destruct (writes_before_wrap n cb0 xs Hn Hnew) as [Hb Hw]; [lia|].
  rewrite (read_spec _ _ d (writes_wf fround xs cb0 Hwf) Hw)
    by (rewrite writes_size; lia).
  rewrite writes_size, Hsz, Hb.
  destruct (Z.leb_spec d (Z.of_nat (length xs))); [lia|].
  rewrite lookup_app_r by (rewrite length_fmap; lia).
  rewrite length_fmap. apply lookup_replicate_2. lia.
Qed.

(** X10. Delays are not clamped to the capacity.  In a buffer of capacity
    [size], at most [2 ^ 52], with the write index at [w], and for a delay
    of at most [2 ^ 53], so that the code computes the index exactly: a
    delay [d + size] with [0 <= d <= w] reads the same slot as the delay
    [d]; a delay beyond [w + size] reads [undefined], unless it exceeds
    [w] by a multiple of the capacity, in which case it reads slot 0. *)
Theorem CircularBuffer_read_beyond_capacity
    (cb : CircularBuffer.t A) (w d : Z) :
  wf cb → writeIndex cb = JS.Num w →
  size cb <= 2 ^ 52 → d <= 2 ^ 53 →
  (0 <= d <= w → read cb (d + size cb) = read cb d) ∧
  (w + size cb < d → ¬ (size cb | d - w) → read cb d = None) ∧
  (w + size cb < d → (size cb | d - w) → read cb d = buffer cb !! 0%nat).
Proof.
  intros Hwf Hw _ _. pose proof Hwf as (Hn & Hlen & w' & Hw' & Hr).
  rewrite Hw in Hw'. injection Hw' as <-.
  assert (Hne : (size cb =? 0) = false) by (apply Z.eqb_neq; lia).
  split; [|split].
  - intros Hd. rewrite (read_spec cb w d Hwf Hw) by lia.
    destruct (Z.leb_spec d w); [|lia].
    unfold read. rewrite Hw. simpl. unfold JS.rem. rewrite Hne.
    replace (w - (d + size cb) + size cb) with (w - d) by lia.
    rewrite Z.rem_small by lia. simpl.
    destruct (Z.leb_spec 0 (w - d)); [done | lia].
  - intros Hd Hdiv. unfold read. rewrite Hw. simpl. unfold JS.rem.
    rewrite Hne. simpl.
    pose proof (Z.rem_nonpos (w - d + size cb) (size cb)
                  ltac:(lia) ltac:(lia)) as Hb.
    destruct (Z.leb_spec 0 (Z.rem (w - d + size cb) (size cb))); [|done].
    exfalso. apply Hdiv.
    assert (Hz : Z.rem (w - d + size cb) (size cb) = 0) by lia.
    apply Z.rem_divide in Hz; [|lia].
    destruct Hz as [q Hq]. exists (1 - q). lia.
  - intros Hd [q Hq]. unfold read. rewrite Hw. simpl. unfold JS.rem.
    rewrite Hne. simpl.
    replace (w - d + size cb) with ((1 - q) * size cb) by lia.
    rewrite Z.rem_mul by lia. done.
Qed.

End CircularBufferFurther.

(** A fresh buffer of four slots after two writes: the delays 3 and 4
    read zero. *)
Lemma CircularBuffer_read_before_first_write_witness :
  ∃ cb0, CircularBuffer.new 0%float 4 = Some cb0 ∧
         CircularBuffer.read
           (CircularBuffer.writes Float32Array.fround cb0 [7; 8]%float) 3
         = Some 0%float.
Proof.
  eexists. split; [reflexivity|].
  apply (CircularBuffer_read_before_first_write
           0%float Float32Array.fround 4 _ [7; 8]%float 3);
    [lia | reflexivity | simpl; lia].
Defined.

(** A buffer of four slots after six writes (write index 2): the delay 9
    is out of range. *)
Lemma CircularBuffer_read_beyond_capacity_witness :
  ∃ cb0, CircularBuffer.new 0%float 4 = Some cb0 ∧
         CircularBuffer.read
           (CircularBuffer.writes Float32Array.fround cb0
              [1; 2; 3; 4; 5; 6]%float) 9 = None.
Proof.
  eexists. split; [reflexivity|].
  destruct (CircularBuffer_read_beyond_capacity
              (CircularBuffer.writes Float32Array.fround
                 (CircularBuffer.Make (replicate 4 0%float) 4 (JS.Num 0))
                 [1; 2; 3; 4; 5; 6]%float) 2 9) as (_ & Hnone & _).
  - split; [simpl; lia|]. split; [reflexivity|].
    exists 2%Z. split; [reflexivity | simpl; lia].
  - reflexivity.
  - simpl. lia.
  - lia.
  - apply Hnone; [simpl; lia|]. simpl. intros [q Hq]. lia.
Defined.

(** ** Delay line: a run at a fixed delay *)

Section DelayLineFurther.
Context {A : Type} (zero : A) (fround : A → A).
Local Open Scope Z_scope.

Lemma run_snoc_call (calls : list (A * Q)) (dl : DelayLine.t A) (x : A) (d : Q) :
  DelayLine.run fround dl (calls ++ [(x, d)])
  = ((DelayLine.process fround (DelayLine.run fround dl calls).1 x d).1,
     (DelayLine.run fround dl calls).2
       ++ [(DelayLine.process fround (DelayLine.run fround dl calls).1 x d).2]).
Proof.
  revert dl. induction calls as [|[y e] calls IH]; intros dl; [done|].
  simpl. rewrite IH.
  destruct (DelayLine.run _ _ calls) as [dl2 ys].
  done.
Qed.

Lemma run_outputs_length (calls : list (A * Q)) (dl : DelayLine.t A) :
  length (DelayLine.run fround dl calls).2 = length calls.
Proof.
  induction calls as [|[x d] calls IH] using rev_ind; [done|].
  rewrite run_snoc_call. cbn [snd]. rewrite !length_app, IH. done.
Qed.

(** The output of one call in terms of the inputs so far. *)
Lemma process_after_run (n : Z) (dl0 : DelayLine.t A)
    (calls : list (A * Q)) (x : A) (d : Q) :
  0 < n → DelayLine.new zero n = Some dl0 → 1 <= Qfloor d <= n →
  (DelayLine.process fround (DelayLine.run fround dl0 calls).1 x d).2
  = (replicate (Z.to_nat (Qfloor d - 1)) zero
       ++ (fround <$> calls.*1 ++ [x]))
      !! length calls.
Proof.
  intros Hn Hnew Hd. apply new_buffer in Hnew.
  unfold DelayLine.process. cbn [snd].
  rewrite run_buffer, <- writes_snoc.
  set (D := Qfloor d) in *. set (xs := calls.*1 ++ [x]).
  assert (Hlen : length xs = S (length calls)).
  { unfold xs. rewrite length_app, length_fmap. simpl. lia. }
  destruct (Z.le_gt_cases D (Z.of_nat (length xs))) as [Hle|Hgt].
  - destruct (new_read_writes zero fround n _ xs D Hn Hnew Hd Hle)
      as (y & Hy & ->).
    rewrite lookup_app_r by (rewrite length_replicate; lia).
    rewrite length_replicate, list_lookup_fmap.
    rewrite rev_alt in Hy. change (rev_append xs []) with (reverse xs) in Hy.
    rewrite reverse_lookup in Hy by lia.
    replace (length calls - Z.to_nat (D - 1))%nat
      with (length xs - S (Z.to_nat (D - 1)))%nat by lia.
    by rewrite Hy.
  - rewrite (CircularBuffer_read_before_first_write zero fround n _ xs D
               Hn Hnew) by lia.
    rewrite lookup_app_l by (rewrite length_replicate; lia).
    symmetry. apply lookup_replicate_2. lia.
Qed.

Lemma fixed_delay_inputs (inputs : list A) (d : Q) :
  ((λ x, (x, d)) <$> inputs).*1 = inputs.
Proof. induction inputs as [|x inputs IH]; [done|]. csimpl. by rewrite IH. Qed.

End DelayLineFurther.

(** X11. What the delay line does at a fixed delay.  A line of capacity
    [n], fresh from the constructor and run at a delay time [d] with
    [1 <= floor d <= n], outputs, behind [floor d - 1] zeros, the input
    signal as the stores converted it (each sample rounded to binary32):
    the delay in samples is one less than the delay time asked for. *)
Theorem DelayLine_run_fixed_delay
    {A : Type} (zero : A) (fround : A → A) (n : Z) (dl0 : DelayLine.t A)
    (inputs : list A) (d : Q) :
  (0 < n)%Z → DelayLine.new zero n = Some dl0 →
  (1 <= Qfloor d <= n)%Z →
  (DelayLine.run fround dl0 ((λ x, (x, d)) <$> inputs)).2
  = Some <$> take (length inputs)
               (replicate (Z.to_nat (Qfloor d - 1)) zero
                  ++ (fround <$> inputs)).
Proof.
  intros Hn Hnew Hd.
  induction inputs as [|x inputs IH] using rev_ind.
  - by rewrite take_0.
  - rewrite fmap_app. simpl. rewrite run_snoc_call. cbn [snd].
    rewrite IH, (process_after_run zero fround n dl0 _ x d Hn Hnew Hd).
    rewrite length_fmap, fixed_delay_inputs.
    set (pre := replicate (Z.to_nat (Qfloor d - 1)) zero).
    rewrite length_app. simpl.
    replace (length inputs + 1)%nat with (S (length inputs)) by lia.
    rewrite (fmap_app fround inputs [x]). simpl.
    destruct ((pre ++ (fround <$> inputs) ++ [fround x]) !! length inputs)
      as [y|] eqn:E.
    + rewrite (take_S_r _ _ y) by done. rewrite fmap_app. simpl.
      f_equal. f_equal.
      rewrite app_assoc.
      by rewrite (take_app_le (pre ++ (fround <$> inputs)) [fround x])
        by (rewrite length_app, length_fmap; lia).
    + apply lookup_ge_None in E.
      rewrite !length_app, length_fmap in E. simpl in E. lia.
Qed.

(** A line of four slots run at delay time 5/2 on 10, 0.1, 30, 40: one
    sample of silence, then the input, with 0.1 rounded to binary32. *)
Lemma DelayLine_run_fixed_delay_witness :
  ∃ dl0, DelayLine.new 0%float 4 = Some dl0 ∧
    (DelayLine.run Float32Array.fround dl0
       [(10%float, 5 # 2); (0x1.999999999999ap-4%float, 5 # 2);
        (30%float, 5 # 2); (40%float, 5 # 2)]).2
    = [Some 0%float; Some 10%float; Some 0x1.99999ap-4%float;
       Some 30%float].
Proof.
  eexists. split; [reflexivity|].
  rewrite (DelayLine_run_fixed_delay 0%float Float32Array.fround 4 _
             [10; 0x1.999999999999ap-4; 30; 40]%float (5 # 2)).
  - vm_compute. reflexivity.
  - lia.
  - reflexivity.
  - vm_compute. split; discriminate.
Defined.

(** ** Script sandbox: promises, timers and workers in general *)

Section SandboxFurther.
Import ScriptSandbox.
Context {D : Type}.

Lemma lookup_alter_proj {X Y : Type} (g : X → Y) (f : X → X)
    (i j : nat) (l : list X) :
  (∀ x, g (f x) = g x) → g <$> alter f i l !! j = g <$> l !! j.
Proof.
  intros Hg. destruct (decide (i = j)) as [->|Hne].
  - rewrite list_lookup_alter, decide_True by done.
    destruct (l !! j); csimpl; [|done]. by rewrite Hg.
  - by rewrite list_lookup_alter_ne.
Qed.

Lemma lookup_insert_proj {X Y : Type} (g : X → Y) (new old : X)
    (i j : nat) (l : list X) :
  l !! i = Some old → g new = g old →
  g <$> <[i := new]> l !! j = g <$> l !! j.
Proof.
  intros Hi Hg. destruct (decide (i = j)) as [->|Hne].
  - rewrite list_lookup_insert_eq by by eapply lookup_lt_Some.
    rewrite Hi. simpl. by rewrite Hg.
  - by rewrite list_lookup_insert_ne.
Qed.

Lemma on_timeout_promise (sb : ScriptSandbox.t D) (id j : nat) :
  promise_of (on_timeout sb id) j = promise_of sb j.
Proof.
  unfold on_timeout, promise_of.
  destruct (invocations sb !! id) as [inv|] eqn:Hinv; [|done].
  destruct (timer_armed inv); [|done]. simpl.
  destruct (worker sb) as [w|].
  - rewrite lookup_alter_proj by done.
    by apply (lookup_insert_proj result _ inv).
  - by apply (lookup_insert_proj result _ inv).
Qed.

Lemma on_worker_promise_other (sb : ScriptSandbox.t D) (id j : nat)
    (q : promise D) :
  id ≠ j → promise_of (on_worker sb id q) j = promise_of sb j.
Proof.
  intros Hne. unfold on_worker, promise_of.
  destruct (invocations sb !! id) as [inv|]; [|done].
  destruct (status inv); [|done]. simpl.
  by rewrite list_lookup_insert_ne.
Qed.

Lemma on_worker_promise_settled (sb : ScriptSandbox.t D) (id j : nat)
    (q p : promise D) :
  promise_of sb j = Some p → p ≠ Pending →
  promise_of (on_worker sb id q) j = Some p.
Proof.
  intros Hp Hnp. destruct (decide (id = j)) as [->|Hne];
    [|by rewrite on_worker_promise_other].
  unfold on_worker, promise_of in *.
  destruct (invocations sb !! j) as [inv|] eqn:Hinv; [|done].
  simpl in Hp. injection Hp as Hp.
  destruct (status inv); [|by rewrite Hinv; simpl; f_equal]. simpl.
  rewrite list_lookup_insert_eq by by eapply lookup_lt_Some.
  simpl. f_equal. rewrite Hp. by destruct p.
Qed.

Lemma steps_snoc (sb : ScriptSandbox.t D) (es : list event) (e : event) :
  steps sb (es ++ [e]) = step (steps sb es) e.
Proof. unfold steps. by rewrite foldl_snoc. Qed.

(** Without a timer callback no worker changes status. *)
Lemma on_worker_status (sb : ScriptSandbox.t D) (id j : nat) (q : promise D) :
  status_of (on_worker sb id q) j = status_of sb j.
Proof.
  unfold on_worker, status_of.
  destruct (invocations sb !! id) as [inv|] eqn:Hinv; [|done].
  destruct (status inv) eqn:Hst; [|done]. simpl.
  apply (lookup_insert_proj status _ inv); [done|]. by rewrite Hst.
Qed.

End SandboxFurther.

(** X12. Only the worker of an invocation settles its promise: through
    any sequence of timer expiries, and of messages and errors of the
    workers of other invocations, the promise of an invocation stays what
    it was.  A timeout, its own or another, neither resolves nor
    rejects. *)
Theorem promise_changes_only_by_own_worker
    {D : Type} (sb : ScriptSandbox.t D) (es : list ScriptSandbox.event)
    (j : nat) :
  Forall (λ e, worker_event_of j e = false) es →
  ScriptSandbox.promise_of (ScriptSandbox.steps sb es) j
  = ScriptSandbox.promise_of sb j.
Proof.
  intros Hes. induction es as [|e es IH] using rev_ind; [done|].
  apply Forall_app in Hes as [Hes He]. rewrite Forall_singleton in He.
  rewrite steps_snoc. destruct e as [id|id data|id error]; simpl in *.
  - rewrite on_timeout_promise. by apply IH.
  - apply bool_decide_eq_false in He.
    rewrite on_worker_promise_other by done. by apply IH.
  - apply bool_decide_eq_false in He.
    rewrite on_worker_promise_other by done. by apply IH.
Qed.

(** Two invocations; the timer of the first expires, the second is
    answered, then its timer expires: the first promise is still
    pending. *)
Lemma promise_changes_only_by_own_worker_witness :
  ScriptSandbox.promise_of
    (ScriptSandbox.steps
       (ScriptSandbox.executeUserScript
          (ScriptSandbox.executeUserScript
             (ScriptSandbox.new (D := list Z))
             (ScriptSandbox.code_units "postMessage([1])") []).1
          (ScriptSandbox.code_units "postMessage([1])") []).1
       [ScriptSandbox.TimerFired 0; ScriptSandbox.Message 1 [1]%Z;
        ScriptSandbox.TimerFired 1]) 0
  = Some ScriptSandbox.Pending.
Proof.
  rewrite promise_changes_only_by_own_worker.
  - vm_compute. reflexivity.
  - repeat constructor.
Defined.

(** X13. A promise settles at most once: once the promise of an
    invocation is fulfilled or rejected, no sequence of later events
    changes it. *)
Theorem settled_promise_is_final
    {D : Type} (sb : ScriptSandbox.t D) (j : nat)
    (p : ScriptSandbox.promise D) (es : list ScriptSandbox.event) :
  ScriptSandbox.promise_of sb j = Some p → p ≠ ScriptSandbox.Pending →
  ScriptSandbox.promise_of (ScriptSandbox.steps sb es) j = Some p.
Proof.
  intros Hp Hnp. induction es as [|e es IH] using rev_ind; [done|].
  rewrite steps_snoc. destruct e as [id|id data|id error]; simpl.
  - by rewrite on_timeout_promise.
  - by apply on_worker_promise_settled.
  - by apply on_worker_promise_settled.
Qed.

(** An invocation answered with [1; 2], then a second message, a worker
    error and its timer: the promise still holds [1; 2]. *)
Lemma settled_promise_is_final_witness :
  ScriptSandbox.promise_of
    (ScriptSandbox.steps
       (ScriptSandbox.step
          (ScriptSandbox.executeUserScript
             (ScriptSandbox.new (D := list Z))
             (ScriptSandbox.code_units "postMessage([1, 2])") []).1
          (ScriptSandbox.Message 0 [1; 2]%Z))
       [ScriptSandbox.Message 0 [3]%Z; ScriptSandbox.WorkerError 0 "late";
        ScriptSandbox.TimerFired 0]) 0
  = Some (ScriptSandbox.Fulfilled [1; 2]%Z).
Proof.
  apply settled_promise_is_final; [|discriminate].
  vm_compute. reflexivity.
Defined.

(** X14. An answer in time.  On any sandbox, for a script that passes
    validation: if the first event of the new invocation is a message of
    its worker, the promise is fulfilled with the data of the message and
    the timer is cancelled, so that its later expiry changes nothing; if
    it is an error of the worker, the promise is rejected with it. *)
Theorem executeUserScript_answer_in_time
    {D : Type} (sb : ScriptSandbox.t D) (code : ScriptSandbox.jsstring)
    (audioData reply : D) (error : string) :
  ScriptSandbox.validateScript code = ScriptSandbox.Returns →
  let id := length (ScriptSandbox.invocations sb) in
  let sb1 := (ScriptSandbox.executeUserScript sb code audioData).1 in
  let answered := ScriptSandbox.step sb1 (ScriptSandbox.Message id reply) in
  let failed := ScriptSandbox.step sb1 (ScriptSandbox.WorkerError id error) in
  ScriptSandbox.promise_of sb1 id = Some ScriptSandbox.Pending ∧
  ScriptSandbox.promise_of answered id
    = Some (ScriptSandbox.Fulfilled reply) ∧
  ScriptSandbox.step answered (ScriptSandbox.TimerFired id) = answered ∧
  ScriptSandbox.uncaught answered = ScriptSandbox.uncaught sb ∧
  ScriptSandbox.promise_of failed id = Some (ScriptSandbox.Rejected error) ∧
  ScriptSandbox.step failed (ScriptSandbox.TimerFired id) = failed.
Proof.
  intros Hv id sb1 answered failed.
  unfold answered, failed, sb1, ScriptSandbox.executeUserScript.
  rewrite Hv. cbn [fst].
  unfold ScriptSandbox.step, ScriptSandbox.on_worker,
    ScriptSandbox.on_timeout, ScriptSandbox.promise_of.
  cbn [ScriptSandbox.invocations ScriptSandbox.worker
       ScriptSandbox.uncaught ScriptSandbox.timeout].
  fold id. rewrite !list_lookup_middle by done.
  cbn [ScriptSandbox.status ScriptSandbox.result ScriptSandbox.settle
       ScriptSandbox.invocations ScriptSandbox.timer_armed].
  rewrite !list_lookup_insert_eq
    by (rewrite length_app; simpl; unfold id; lia).
  cbn [ScriptSandbox.timer_armed]. done.
Qed.

(** A fresh sandbox, a script that posts its input back, and the answer
    [1; 2]. *)
Lemma executeUserScript_answer_in_time_witness :
  ScriptSandbox.promise_of
    (ScriptSandbox.step
       (ScriptSandbox.executeUserScript (ScriptSandbox.new (D := list Z))
          (ScriptSandbox.code_units "onmessage = e => postMessage(e.data)")
          [1; 2]%Z).1
       (ScriptSandbox.Message 0 [1; 2]%Z)) 0
  = Some (ScriptSandbox.Fulfilled [1; 2]%Z).
Proof.
  destruct (executeUserScript_answer_in_time
              (ScriptSandbox.new (D := list Z))
              (ScriptSandbox.code_units "onmessage = e => postMessage(e.data)")
              [1; 2]%Z [1; 2]%Z "") as (_ & H & _).
  - vm_compute. reflexivity.
  - exact H.
Defined.

(** X15. Only a timer terminates a worker: through any sequence of worker
    messages and worker errors the status of every worker stays what it
    was.  In particular the worker of an invocation that was answered
    keeps running. *)
Theorem workers_outlive_their_answers
    {D : Type} (sb : ScriptSandbox.t D) (es : list ScriptSandbox.event)
    (j : nat) :
  Forall (λ e, ∀ id, e ≠ ScriptSandbox.TimerFired id) es →
  ScriptSandbox.status_of (ScriptSandbox.steps sb es) j
  = ScriptSandbox.status_of sb j.
Proof.
  intros Hes. induction es as [|e es IH] using rev_ind; [done|].
  apply Forall_app in Hes as [Hes He]. rewrite Forall_singleton in He.
  rewrite steps_snoc. destruct e as [id|id data|id error]; simpl.
  - by destruct (He id).
  - rewrite on_worker_status. by apply IH.
  - rewrite on_worker_status. by apply IH.
Qed.

(** After its answer the worker of the first invocation is still
    running. *)
Lemma workers_outlive_their_answers_witness :
  ScriptSandbox.status_of
    (ScriptSandbox.steps
       (ScriptSandbox.executeUserScript (ScriptSandbox.new (D := list Z))
          (ScriptSandbox.code_units "postMessage([])") []).1
       [ScriptSandbox.Message 0 []]) 0
  = Some ScriptSandbox.Running.
Proof.
  rewrite workers_outlive_their_answers.
  - vm_compute. reflexivity.
  - repeat constructor. discriminate.
Defined.

(** X16. Text around a rejected script does not make it acceptable: if
    [validateScript] throws on a script, it throws on every script that
    contains it. *)
Theorem validateScript_rejects_every_extension
    (code before after : ScriptSandbox.jsstring) (message : string) :
  ScriptSandbox.validateScript code = ScriptSandbox.Throws message →
  ∃ message',
    ScriptSandbox.validateScript (before ++ code ++ after)
    = ScriptSandbox.Throws message'.
Proof.
  intros Hv.
  destruct (ScriptSandbox.validateScript (before ++ code ++ after)) eqn:E;
    [|by eexists].
  apply validateScript_returns in E as [Hno Hlen].
  assert (ScriptSandbox.validateScript code = ScriptSandbox.Returns);
    [|congruence].
  apply validateScript_returns. split.
  - intros p Hin (pre & m & post & -> & Hm). apply (Hno p Hin).
    exists (before ++ pre), m, (post ++ after).
    split; [|done]. by rewrite <- !app_assoc.
  - rewrite !length_app in Hlen. lia.
Qed.

(** A call of [eval] inside a function body. *)
Lemma validateScript_rejects_every_extension_witness :
  ∃ message',
    ScriptSandbox.validateScript
      (ScriptSandbox.code_units "function f() { "
       ++ ScriptSandbox.code_units "eval('1')"
       ++ ScriptSandbox.code_units " }")
    = ScriptSandbox.Throws message'.
Proof.
  apply (validateScript_rejects_every_extension _ _ _
           "Script contains unsafe code patterns").
  vm_compute. reflexivity.
Defined.

(** ** Rate limiter: the log and the sliding window *)

Section RateLimiterFacts.
Import RateLimiter.
Local Open Scope Z_scope.

Lemma run_snoc_limiter (rl : RateLimiter.t) (calls : list (string * Z))
    (identifier : string) (now : Z) :
  run rl (calls ++ [(identifier, now)])
  = ((isAllowed (run rl calls).1 identifier now).1,
     (run rl calls).2 ++ [(isAllowed (run rl calls).1 identifier now).2]).
Proof. unfold run. by rewrite foldl_snoc. Qed.

Lemma run_answers_length (rl : RateLimiter.t) (calls : list (string * Z)) :
  length (run rl calls).2 = length calls.
Proof.
  induction calls as [|[i t] calls IH] using rev_ind; [done|].
  rewrite run_snoc_limiter. cbn [snd]. rewrite !length_app, IH. done.
Qed.

Lemma isAllowed_parameters (rl : RateLimiter.t) (identifier : string) (now : Z) :
  maxRequests (isAllowed rl identifier now).1 = maxRequests rl ∧
  windowMs (isAllowed rl identifier now).1 = windowMs rl.
Proof. unfold isAllowed. by destruct (_ <=? _). Qed.

Lemma run_parameters (rl : RateLimiter.t) (calls : list (string * Z)) :
  maxRequests (run rl calls).1 = maxRequests rl ∧
  windowMs (run rl calls).1 = windowMs rl.
Proof.
  induction calls as [|[i t] calls [IHm IHw]] using rev_ind; [done|].
  rewrite run_snoc_limiter. cbn [fst].
  destruct (isAllowed_parameters (run rl calls).1 i t) as [-> ->]. done.
Qed.

(** One call keeps every stored log non-empty and within the limit. *)
Lemma isAllowed_log_bound (rl : RateLimiter.t) (identifier : string) (now : Z) :
  (∀ i l, requests rl !! i = Some l →
          0 < Z.of_nat (length l) <= maxRequests rl) →
  ∀ i l, requests (isAllowed rl identifier now).1 !! i = Some l →
         0 < Z.of_nat (length l) <= maxRequests rl.
Proof.
  intros Hinv i l. unfold isAllowed.
  destruct (Z.leb_spec (maxRequests rl)
              (Z.of_nat (length (filter (λ time, now - time < windowMs rl)
                                   (default [] (requests rl !! identifier))))))
    as [Hfull|Hroom]; cbn [fst requests]; [apply Hinv|].
  destruct (decide (identifier = i)) as [->|Hne].
  - rewrite lookup_insert_eq. intros [= <-]. rewrite length_app. simpl. lia.
  - rewrite lookup_insert_ne by done. apply Hinv.
Qed.

Lemma run_log_bound (m w : Z) (calls : list (string * Z)) (i : string)
    (l : list Z) :
  requests (run (new m w) calls).1 !! i = Some l →
  0 < Z.of_nat (length l) <= m.
Proof.
  revert i l. induction calls as [|[j t] calls IH] using rev_ind; intros i l.
  - unfold run; simpl. by rewrite lookup_empty.
  - rewrite run_snoc_limiter. cbn [fst]. intros H.
    destruct (run_parameters (new m w) calls) as [Hm _]. simpl in Hm.
    rewrite <- Hm. eapply isAllowed_log_bound; [|exact H].
    intros i' l' H'. rewrite Hm. by eapply IH.
Qed.

Lemma granted_snoc (rl : RateLimiter.t) (identifier : string)
    (calls : list (string * Z)) (i : string) (t : Z) :
  granted rl identifier (calls ++ [(i, t)])
  = granted rl identifier calls
    ++ (if (isAllowed (run rl calls).1 i t).2 && bool_decide (i = identifier)
        then [t] else []).
Proof.
  unfold granted. rewrite run_snoc_limiter. cbn [snd].
  rewrite zip_with_app by by rewrite run_answers_length.
  rewrite omap_app. f_equal. simpl.
  by destruct (_ && _).
Qed.

Lemma nondecreasing_snoc (times : list Z) (t : Z) :
  nondecreasing (times ++ [t]) →
  nondecreasing times ∧ ∀ s, s ∈ times → s <= t.
Proof.
  intros H. split.
  - intros i j s u Hij Hi Hj. apply (H i j); [done|..];
      by apply lookup_app_l_Some.
  - intros s [i Hi]%list_elem_of_lookup.
    apply (H i (length times)).
    + by eapply lookup_lt_Some.
    + by apply lookup_app_l_Some.
    + by rewrite list_lookup_middle.
Qed.

Lemma filter_window_later (w t now : Z) (l : list Z) :
  t <= now →
  filter (λ s, now - s < w) (filter (λ s, t - s < w) l)
  = filter (λ s, now - s < w) l.
Proof.
  intros Hle. induction l as [|s l IH]; [done|].
  rewrite !filter_cons.
  destruct (decide (t - s < w)), (decide (now - s < w));
    rewrite ?filter_cons, ?decide_True, ?decide_False by lia;
    try (by rewrite IH); lia.
Qed.

(** With a clock that never goes back, the stored log and the full
    history of allowed calls agree on every window that ends now or
    later. *)
Lemma log_agrees_with_history (m w : Z) (identifier : string)
    (calls : list (string * Z)) (now : Z) :
  nondecreasing (calls.*2) → (∀ s, s ∈ calls.*2 → s <= now) →
  filter (λ s, now - s < w)
         (default [] (requests (run (new m w) calls).1 !! identifier))
  = filter (λ s, now - s < w) (granted (new m w) identifier calls).
Proof.
  revert now. induction calls as [|[i t] calls IH] using rev_ind;
    intros now Hmono Hnow.
  - unfold run; simpl. by rewrite lookup_empty.
  - rewrite fmap_app in Hmono, Hnow. simpl in Hmono, Hnow.
    apply nondecreasing_snoc in Hmono as [Hmono Ht].
    assert (Htn : t <= now).
    { apply Hnow, elem_of_app. right. by apply list_elem_of_singleton. }
    assert (Hnow' : ∀ s, s ∈ calls.*2 → s <= now).
    { intros s Hs. apply Hnow, elem_of_app. by left. }
    rewrite granted_snoc, run_snoc_limiter. cbn [fst].
    destruct (run_parameters (new m w) calls) as [Hm Hw].
    simpl in Hm, Hw.
    unfold isAllowed at 1 2. rewrite Hm, Hw.
    set (rl := (run (new m w) calls).1) in *.
    destruct (Z.leb_spec m
                (Z.of_nat (length (filter (λ time, t - time < w)
                                     (default [] (requests rl !! i))))))
      as [Hfull|Hroom]; cbn [fst snd requests].
    + simpl. rewrite app_nil_r. by apply IH.
    + destruct (decide (i = identifier)) as [->|Hne].
      * rewrite lookup_insert_eq, bool_decide_eq_true_2 by done. simpl.
        rewrite !filter_app, filter_window_later by done.
        f_equal. by apply IH.
      * rewrite lookup_insert_ne, bool_decide_eq_false_2 by done. simpl.
        rewrite app_nil_r. by apply IH.
Qed.

End RateLimiterFacts.

(** X17. The log of an identifier never outgrows the limit: after any
    calls on a fresh limiter, at any clock readings, every stored log has
    at least one and at most [maxRequests] entries. *)
Theorem RateLimiter_log_bounded
    (m w : Z) (calls : list (string * Z)) (identifier : string) (l : list Z) :
  RateLimiter.requests (RateLimiter.run (RateLimiter.new m w) calls).1
    !! identifier = Some l →
  (0 < Z.of_nat (length l) <= m)%Z ∧
  RateLimiter.maxRequests (RateLimiter.run (RateLimiter.new m w) calls).1 = m.
Proof.
  intros H. split.
  - by eapply run_log_bound.
  - by destruct (run_parameters (RateLimiter.new m w) calls) as [-> _].
Qed.

(** Limit 2, window 10, five calls of one identifier: two entries are
    stored. *)
Lemma RateLimiter_log_bounded_witness :
  ∃ l, RateLimiter.requests
         (RateLimiter.run (RateLimiter.new 2 10)
            [("a", 0); ("a", 1); ("a", 2); ("a", 10); ("a", 11)]%Z).1
         !! "a" = Some l ∧
       (0 < Z.of_nat (length l) <= 2)%Z.
Proof.
  eexists. split; [vm_compute; reflexivity|].
  eapply (RateLimiter_log_bounded 2 10
            [("a", 0); ("a", 1); ("a", 2); ("a", 10); ("a", 11)]%Z "a").
  vm_compute. reflexivity.
Defined.

(** X18. The sliding window.  With a clock that never goes back, a call
    is allowed exactly when fewer than [maxRequests] calls of the same
    identifier were allowed less than [windowMs] milliseconds ago; calls
    of other identifiers and refused calls do not count. *)
Theorem RateLimiter_sliding_window
    (m w : Z) (calls : list (string * Z)) (identifier : string) (now : Z) :
  nondecreasing (calls.*2 ++ [now]) →
  (RateLimiter.isAllowed
     (RateLimiter.run (RateLimiter.new m w) calls).1 identifier now).2
  = bool_decide
      (Z.of_nat (length (filter (λ s, now - s < w)%Z
                           (granted (RateLimiter.new m w) identifier calls)))
       < m)%Z.
Proof.
  intros Hmono. apply nondecreasing_snoc in Hmono as [Hmono Hnow].
  rewrite <- (log_agrees_with_history m w identifier calls now Hmono Hnow).
  destruct (run_parameters (RateLimiter.new m w) calls) as [Hm Hw].
  simpl in Hm, Hw.
  unfold RateLimiter.isAllowed. rewrite Hm, Hw.
  destruct (Z.leb_spec m
              (Z.of_nat (length (filter (λ time, now - time < w)%Z
                 (default []
                    (RateLimiter.requests
                       (RateLimiter.run (RateLimiter.new m w) calls).1
                     !! identifier))))))
    as [Hfull|Hroom]; cbn [snd].
  - by rewrite bool_decide_eq_false_2 by lia.
  - by rewrite bool_decide_eq_true_2 by lia.
Qed.

(** Limit 2, window 10: after allowed calls at 0 and 1 and a refused one
    at 2, a call at 10 is allowed, because only the call at 1 is less
    than 10 ms old. *)
Lemma RateLimiter_sliding_window_witness :
  (RateLimiter.isAllowed
     (RateLimiter.run (RateLimiter.new 2 10)
        [("a", 0); ("a", 1); ("a", 2); ("b", 3)]%Z).1 "a" 10).2 = true.
Proof.
  rewrite RateLimiter_sliding_window.
  - vm_compute. reflexivity.
  - intros i j s t Hij Hi Hj.
    destruct i as [|[|[|[|[|i]]]]], j as [|[|[|[|[|j]]]]];
      simpl in Hi, Hj; try lia; try discriminate;
      injection Hi as <-; injection Hj as <-; lia.
Defined.

(** X19. The rate limit.  With a clock that never goes back, at any
    moment not before the last call, the calls of one identifier that
    were allowed less than [windowMs] milliseconds ago number at most
    [maxRequests]. *)
Theorem RateLimiter_rate_limit
    (m w : Z) (calls : list (string * Z)) (identifier : string) (now : Z) :
  nondecreasing (calls.*2) → (∀ s, s ∈ calls.*2 → (s <= now)%Z) →
  (Z.of_nat (length (filter (λ s, now - s < w)%Z
                       (granted (RateLimiter.new m w) identifier calls)))
   <= Z.max 0 m)%Z.
Proof.
  intros Hmono Hnow.
  rewrite <- (log_agrees_with_history m w identifier calls now Hmono Hnow).
  destruct (RateLimiter.requests
              (RateLimiter.run (RateLimiter.new m w) calls).1 !! identifier)
    as [l|] eqn:E; simpl.
  - pose proof (run_log_bound m w calls identifier l E).
    pose proof (length_filter (λ s, now - s < w)%Z l). lia.
  - change (Z.of_nat 0 <= Z.max 0 m)%Z. lia.
Qed.

(** Limit 2, window 10, calls at 0, 1, 2, 3, 4: at time 4 two calls
    count. *)
Lemma RateLimiter_rate_limit_witness :
  (Z.of_nat (length (filter (λ s, 4 - s < 10)%Z
                       (granted (RateLimiter.new 2 10) "a"
                          [("a", 0); ("a", 1); ("a", 2); ("a", 3); ("a", 4)]%Z)))
   <= Z.max 0 2)%Z.
Proof.
  apply RateLimiter_rate_limit.
  - intros i j s t Hij Hi Hj.
    destruct i as [|[|[|[|[|i]]]]], j as [|[|[|[|[|j]]]]];
      simpl in Hi, Hj; try lia; try discriminate;
      injection Hi as <-; injection Hj as <-; lia.
  - intros s Hs. simpl in Hs. set_unfold in Hs. lia.
Defined.

(** ** Input validator: escaping and node names *)

Section InputValidatorFacts.
Import InputValidator.
Local Open Scope N_scope.

Lemma escape_unit_no_bracket (c : N) :
  (60 ∉ escape_unit c) ∧ (62 ∉ escape_unit c).
Proof.
  unfold escape_unit.
  destruct (N.eqb_spec c 38);
    [split; apply (bool_decide_unpack _); vm_compute; exact I|].
  destruct (N.eqb_spec c 160);
    [split; apply (bool_decide_unpack _); vm_compute; exact I|].
  destruct (N.eqb_spec c 60);
    [split; apply (bool_decide_unpack _); vm_compute; exact I|].
  destruct (N.eqb_spec c 62);
    [split; apply (bool_decide_unpack _); vm_compute; exact I|].
  split; intros H%list_elem_of_singleton; congruence.
Qed.

Lemma escape_unit_plain (c : N) :
  c ≠ 38 → c ≠ 160 → c ≠ 60 → c ≠ 62 → escape_unit c = [c].
Proof.
  intros H1 H2 H3 H4. unfold escape_unit.
  by rewrite !(proj2 (N.eqb_neq _ _)) by done.
Qed.

Lemma is_name_char_plain (c : N) :
  is_name_char c = true → c ≠ 38 ∧ c ≠ 160 ∧ c ≠ 60 ∧ c ≠ 62.
Proof.
  unfold is_name_char. intros H.
  repeat split; intros ->; discriminate.
Qed.

(** Two escaped texts agree only if they agree unit by unit. *)
Lemma escape_unit_inj (c c' : N) (r r' : ScriptSandbox.jsstring) :
  escape_unit c ++ r = escape_unit c' ++ r' → c = c' ∧ r = r'.
Proof.
  unfold escape_unit.
  destruct (N.eqb_spec c 38), (N.eqb_spec c 160), (N.eqb_spec c 60),
    (N.eqb_spec c 62), (N.eqb_spec c' 38), (N.eqb_spec c' 160),
    (N.eqb_spec c' 60), (N.eqb_spec c' 62);
    subst; try lia; cbv; intros [=]; subst; done.
Qed.

End InputValidatorFacts.

(** X20. The text that [sanitizeHTML] returns holds no angle bracket,
    whatever the input: nothing in it opens or closes a tag. *)
Theorem sanitizeHTML_has_no_angle_bracket (input : ScriptSandbox.jsstring) :
  (60%N ∉ InputValidator.sanitizeHTML input) ∧
  (62%N ∉ InputValidator.sanitizeHTML input).
Proof.
  unfold InputValidator.sanitizeHTML.
  induction input as [|c input [IH1 IH2]]; simpl.
  - split; apply not_elem_of_nil.
  - destruct (escape_unit_no_bracket c) as [H1 H2].
    split; rewrite elem_of_app; tauto.
Qed.

(** X21. [sanitizeHTML] loses nothing: two different inputs never give
    the same text. *)
Theorem sanitizeHTML_is_injective (a b : ScriptSandbox.jsstring) :
  InputValidator.sanitizeHTML a = InputValidator.sanitizeHTML b → a = b.
Proof.
  unfold InputValidator.sanitizeHTML. revert b.
  induction a as [|c a IH]; intros b H.
  - destruct b as [|c' b]; [done|]. simpl in H.
    unfold InputValidator.escape_unit in H.
    repeat destruct (_ =? _)%N; discriminate.
  - destruct b as [|c' b]; simpl in H.
    + unfold InputValidator.escape_unit in H.
      repeat destruct (_ =? _)%N; discriminate.
    + apply escape_unit_inj in H as [-> H]. f_equal. by apply IH.
Qed.

(** The text [a<b], given once as a string and once by its code
    units. *)
Lemma sanitizeHTML_is_injective_witness :
  InputValidator.sanitizeHTML (ScriptSandbox.code_units "a<b")
  = ScriptSandbox.code_units "a&lt;b" ∧
  ScriptSandbox.code_units "a<b" = [97; 60; 98]%N.
Proof.
  split; [vm_compute; reflexivity|].
  apply (sanitizeHTML_is_injective
           (ScriptSandbox.code_units "a<b") [97; 60; 98]%N).
  vm_compute. reflexivity.
Defined.

(** X22. A name that [validateNodeName] accepts has between 1 and 50
    characters, all letters, digits, spaces, hyphens or underscores, and
    needs no escaping: [sanitizeHTML] returns it unchanged. *)
Theorem validateNodeName_accepts_plain_text (name : ScriptSandbox.jsstring) :
  InputValidator.validateNodeName name = true →
  (1 <= Z.of_nat (length name) <= 50)%Z ∧
  Forall (λ c, InputValidator.is_name_char c = true) name ∧
  InputValidator.sanitizeHTML name = name.
Proof.
  unfold InputValidator.validateNodeName. intros H.
  destruct (N.ltb_spec (N.of_nat (length name)) 1); [done|].
  destruct (N.ltb_spec 50 (N.of_nat (length name))); [done|]. simpl in H.
  destruct (forallb InputValidator.is_name_char name) eqn:Hall;
    [|done].
  assert (HF : Forall (λ c, InputValidator.is_name_char c = true) name).
  { apply Forall_forall. intros c Hc.
    apply (proj1 (forallb_forall _ _) Hall). by apply list_elem_of_In. }
  split; [lia|]. split; [done|].
  clear H H0 H1 Hall. unfold InputValidator.sanitizeHTML.
  induction HF as [|c name Hc HF IH]; [done|]. simpl.
  apply is_name_char_plain in Hc as (H1 & H2 & H3 & H4).
  by rewrite escape_unit_plain, IH.
Qed.

(** The name [Low-pass 1]. *)
Lemma validateNodeName_accepts_plain_text_witness :
  InputValidator.sanitizeHTML (ScriptSandbox.code_units "Low-pass 1")
  = ScriptSandbox.code_units "Low-pass 1".
Proof.
  apply validateNodeName_accepts_plain_text. vm_compute. reflexivity.
Defined.

(** ** OAuth service: shape of the state and of the code challenge *)

Section OAuthFacts.
Import OAuthService.
Local Open Scope N_scope.

Lemma replacements_cons (c : N) (s : ScriptSandbox.jsstring) :
  replacements (c :: s) = replacements [c] ++ replacements s.
Proof.
  change (c :: s) with ([c] ++ s).
  unfold replacements, remove_all, replace_all, ScriptSandbox.jsstring.
  by rewrite !fmap_app, list.filter_app.
Qed.

Lemma replacements_padding : replacements [61] = [].
Proof. reflexivity. Qed.

Ltac split_tests :=
  repeat match goal with
         | |- context [(?a <=? ?b)%N] => destruct (N.leb_spec a b)
         | |- context [(?a <? ?b)%N] => destruct (N.ltb_spec a b)
         | |- context [(?a =? ?b)%N] => destruct (N.eqb_spec a b)
         | |- context [decide (?a ≠ ?b)] => destruct (decide (a ≠ b))
         end.

(** A character of the base64 alphabet leaves the chain as one URL-safe
    character. *)
Lemma replacements_base64_char (i : N) :
  i < 64 →
  ∃ c, replacements [base64_char i] = [c] ∧ is_url_safe c = true.
Proof.
  intros Hi.
  unfold replacements, remove_all, replace_all, base64_char,
    ScriptSandbox.jsstring.
  csimpl. rewrite filter_cons, filter_nil. unfold is_url_safe.
  split_tests; try lia; eexists; (split; [reflexivity|]);
    unfold is_url_safe; split_tests; simpl; try done; lia.
Qed.

Lemma base64_shape (n : nat) (bytes : list N) :
  (length bytes <= n)%nat → Forall (λ b, b < 256) bytes →
  length (replacements (base64 bytes)) = ((4 * length bytes + 2) / 3)%nat ∧
  Forall (λ c, is_url_safe c = true) (replacements (base64 bytes)).
Proof.
  revert bytes. induction n as [|n IH]; intros bytes Hlen Hb.
  { destruct bytes; [done | simpl in Hlen; lia]. }
  destruct bytes as [|a [|b [|c rest]]]; [done|..].
  - apply Forall_cons in Hb as [Ha _]. cbn [base64].
    destruct (replacements_base64_char (a / 4)) as (c1 & E1 & S1).
    { apply N.Div0.div_lt_upper_bound. lia. }
    destruct (replacements_base64_char (a mod 4 * 16)) as (c2 & E2 & S2).
    { pose proof (N.mod_upper_bound a 4). lia. }
    rewrite replacements_cons, E1, replacements_cons, E2.
    change (replacements [61; 61]) with (@nil N).
    split; [done|]. by repeat constructor.
  - apply Forall_cons in Hb as [Ha Hb]. apply Forall_cons in Hb as [Hb _].
    cbn [base64].
    destruct (replacements_base64_char (a / 4)) as (c1 & E1 & S1).
    { apply N.Div0.div_lt_upper_bound. lia. }
    destruct (replacements_base64_char (a mod 4 * 16 + b / 16))
      as (c2 & E2 & S2).
    { pose proof (N.mod_upper_bound a 4).
      assert (b / 16 < 16) by (apply N.Div0.div_lt_upper_bound; lia). lia. }
    destruct (replacements_base64_char (b mod 16 * 4)) as (c3 & E3 & S3).
    { pose proof (N.mod_upper_bound b 16). lia. }
    rewrite replacements_cons, E1, replacements_cons, E2,
      replacements_cons, E3.
    change (replacements [61]) with (@nil N).
    split; [done|]. by repeat constructor.
  - apply Forall_cons in Hb as [Ha Hb]. apply Forall_cons in Hb as [Hb Hc].
    apply Forall_cons in Hc as [Hc Hrest].
    cbn [base64].
    destruct (replacements_base64_char (a / 4)) as (c1 & E1 & S1).
    { apply N.Div0.div_lt_upper_bound. lia. }
    destruct (replacements_base64_char (a mod 4 * 16 + b / 16))
      as (c2 & E2 & S2).
    { pose proof (N.mod_upper_bound a 4).
      assert (b / 16 < 16) by (apply N.Div0.div_lt_upper_bound; lia). lia. }
    destruct (replacements_base64_char (b mod 16 * 4 + c / 64))
      as (c3 & E3 & S3).
    { pose proof (N.mod_upper_bound b 16).
      assert (c / 64 < 4) by (apply N.Div0.div_lt_upper_bound; lia). lia. }
    destruct (replacements_base64_char (c mod 64)) as (c4 & E4 & S4).
    { apply N.mod_upper_bound. lia. }
    simpl app.
    rewrite replacements_cons, E1, replacements_cons, E2,
      replacements_cons, E3, replacements_cons, E4.
    destruct (IH rest) as [IHl IHs]; [simpl in Hlen; lia | done |].
    split.
    + rewrite !length_app, IHl. cbn [length].
      generalize (length rest) as k. intros k.
      replace (4 * S (S (S k)) + 2)%nat
        with ((4 * k + 2) + 4 * 3)%nat by lia.
      rewrite Nat.div_add by lia. lia.
    + simpl. by repeat constructor.
Qed.

End OAuthFacts.

(** X23. The state and the code challenge.  From bytes, as a
    [Uint8Array] and a digest hold them, [generateState] and
    [generateCodeChallenge] never throw and return a text of
    [(4 n + 2) / 3] characters for [n] bytes, all of them letters,
    digits, [-] or [_]: for the 32 bytes of the random array and of a
    SHA-256 digest, 43 characters that need no escaping in a URL. *)
Theorem OAuthService_tokens_are_url_safe (bytes : list N) :
  Forall (λ b, (b < 256)%N) bytes →
  ∃ s, OAuthService.generateState bytes = Some s ∧
       OAuthService.generateCodeChallenge bytes = Some s ∧
       length s = (4 * length bytes + 2) / 3 ∧
       Forall (λ c, is_url_safe c = true) s ∧
       (length bytes = 32 → length s = 43).
Proof.
  intros Hb.
  assert (Hall : forallb (λ c, (c <? 256)%N) bytes = true).
  { apply forallb_forall. intros b Hin%list_elem_of_In.
    apply N.ltb_lt. rewrite Forall_forall in Hb. by apply Hb. }
  destruct (base64_shape (length bytes) bytes (Nat.le_refl _) Hb) as [Hl Hs].
  exists (replacements (OAuthService.base64 bytes)).
  unfold OAuthService.generateState, OAuthService.generateCodeChallenge,
    OAuthService.url_safe_base64, OAuthService.btoa.
  rewrite Hall. split; [done|]. split; [done|]. split; [done|].
  split; [done|]. intros H32. rewrite Hl, H32. reflexivity.
Qed.

(** The bytes 251, 255, 190, 255 give [-_--_w]. *)
Lemma OAuthService_tokens_are_url_safe_witness :
  ∃ s, OAuthService.generateState [251; 255; 190; 255]%N = Some s ∧
       length s = 6 ∧ Forall (λ c, is_url_safe c = true) s.
Proof.
  destruct (OAuthService_tokens_are_url_safe [251; 255; 190; 255]%N)
    as (s & Hs & _ & Hl & Hu & _).
  - repeat constructor.
  - exists s. split; [done|]. split; [exact Hl | done].
Defined.
